(** * K-means with a threaded assignment phase (prog6_kmeans/kmeansThread.cpp)

    A shallow embedding of [kmeansThread.cpp] and the properties of its
    partitioning, assignment kernel, centroid update and convergence test.

    Modelling choices.
    - [double] is Rocq's primitive binary64 [float]; [pow(d, 2)] is taken to
      be the correctly rounded product [d * d].
    - [int] is [Z]; the well-formedness predicates bound the index products
      by [INT_MAX], so no signed overflow is reachable where a theorem
      assumes them.  [/] on [int] is truncating division, [Z.quot].
    - The four arrays every [WorkerArgs] points to are the fields of one
      shared [Mem]; all copies of the argument record made by
      [computeAssignments] alias that one memory.
    - An access outside an array, a negative array size and a division by
      zero are undefined behaviour: the functions return [option], and
      [None] is undefined behaviour.
    - The driver loop of [kMeansThread] runs on fuel and returns a [Res]:
      [Undefined] is undefined behaviour, [Timeout] says the fuel ran out
      before the stopping condition held. *)

From Stdlib Require Import ZArith Lia Floats.
From stdpp Require Import base tactics option list list_numbers.

Open Scope Z_scope.

(** ** Arrays *)

Definition INT_MAX : Z := 2147483647.

(** [new T[n]]; the contents are unspecified until written, [d] stands for
    them. *)
Definition new_array {A} (n : Z) (d : A) : option (list A) :=
  if bool_decide (0 ≤ n) then Some (replicate (Z.to_nat n) d) else None.

(** [a[i]] as an rvalue. *)
Definition load {A} (a : list A) (i : Z) : option A :=
  if bool_decide (0 ≤ i) then
    a !! Z.to_nat i
  else None.

(** [a[i] = v]. *)
Definition store {A} (a : list A) (i : Z) (v : A) : option (list A) :=
  if bool_decide (0 ≤ i < Z.of_nat (length a)) then Some (<[Z.to_nat i := v]> a)
  else None.

(** [for (int i = lo; i < hi; i++) body], threading the loop state [S]. *)
Fixpoint for_loop {S} (n : nat) (i : Z) (body : Z → S → option S) (s : S) :
    option S :=
  match n with
  | O => Some s
  | S n' => s' ← body i s; for_loop n' (i + 1) body s'
  end.

Definition For {S} (lo hi : Z) (body : Z → S → option S) (s : S) : option S :=
  for_loop (Z.to_nat (hi - lo)) lo body s.

(** ** Floating point *)

(** The literal [1e30], rounded to binary64 as the compiler does. *)
Definition HUGE : float := 0x1.93e5939a08ceap+99%float.

Definition pow2 (d : float) : float := (d * d)%float.

(** Conversion of a non-negative [int] to [double] (exact below 2^53). *)
Definition of_int (c : Z) : float := PrimFloat.of_uint63 (Uint63.of_Z c).

(** ** Program state *)

Record Mem : Type := mkMem {
  data : list float;
  clusterCentroids : list float;
  clusterAssignments : list Z;
  currCost : list float
}.

Record WorkerArgs : Type := mkArgs {
  start : Z;
  end_ : Z;
  M : Z;
  N : Z;
  K : Z;
  threadId : Z;
  numThreads : Z
}.

Definition set_clusterAssignments (mem : Mem) (a : list Z) : Mem :=
  mkMem (data mem) (clusterCentroids mem) a (currCost mem).
Definition set_clusterCentroids (mem : Mem) (c : list float) : Mem :=
  mkMem (data mem) c (clusterAssignments mem) (currCost mem).
Definition set_currCost (mem : Mem) (c : list float) : Mem :=
  mkMem (data mem) (clusterCentroids mem) (clusterAssignments mem) c.

(** ** stoppingConditionMet

    [abs(prevCost[k] - currCost[k]) > epsilon] is the comparison
    [epsilon < abs(...)]; the loop returns [false] at the first [k] where it
    holds. *)

Fixpoint stoppingLoop (prevCost currCost : list float) (epsilon : float)
    (n : nat) (k : Z) : option bool :=
  match n with
  | O => Some true
  | S n' =>
      p ← load prevCost k;
      c ← load currCost k;
      if (epsilon <? abs (p - c))%float then Some false
      else stoppingLoop prevCost currCost epsilon n' (k + 1)
  end.

Definition stoppingConditionMet (prevCost currCost : list float)
    (epsilon : float) (K : Z) : option bool :=
  stoppingLoop prevCost currCost epsilon (Z.to_nat K) 0.

(** ** dist

    A pointer into an array is the array and an offset. *)
Definition dist (x y : list float * Z) (nDim : Z) : option float :=
  accum ← For 0 nDim (λ i accum,
             xi ← load x.1 (x.2 + i);
             yi ← load y.1 (y.2 + i);
             mret (accum + pow2 (xi - yi))%float) 0%float;
  mret (sqrt accum).

(** ** workerThreadStart

    The kernel reads [data] and [clusterCentroids] and writes
    [clusterAssignments] and its private [minDist]; the loops thread the two
    arrays that change. *)

Definition workerThreadStart (args : WorkerArgs) (mem : Mem) : option Mem :=
  let numPoints := end_ args - start args in
  minDist ← new_array numPoints 0%float;
  (* Initialization. *)
  '(minDist, assignments) ←
    For 0 numPoints (λ i '(minDist, assignments),
      minDist ← store minDist i HUGE;
      let m := start args + i in
      assignments ← store assignments m (-1);
      mret (minDist, assignments)) (minDist, clusterAssignments mem);
  (* Assign datapoints to closest centroids *)
  '(_, assignments) ←
    For 0 numPoints (λ i,
      For 0 (K args) (λ k '(minDist, assignments),
        let m := start args + i in
        d ← dist (data mem, m * N args)
                 (clusterCentroids mem, k * N args) (N args);
        md ← load minDist i;
        if (d <? md)%float then
          minDist ← store minDist i d;
          assignments ← store assignments m k;
          mret (minDist, assignments)
        else mret (minDist, assignments))) (minDist, assignments);
  mret (set_clusterAssignments mem assignments).

(** ** computeAssignments

    [args_arr] is the array of per-thread argument records the function
    fills in; every record points to the arrays of the one [Mem]. *)

Definition args_arr (args : WorkerArgs) (numThreads : Z) : list WorkerArgs :=
  let numPointsPerThread := M args `quot` numThreads in
  (λ i, {| start := numPointsPerThread * i;
           end_ := Z.min (numPointsPerThread * (i + 1)) (M args);
           M := M args; N := N args; K := K args;
           threadId := i;
           numThreads := numThreads |}) <$> seqZ 0 numThreads.

(** The workers of a list run to completion one after the other. *)
Fixpoint run_workers (ws : list WorkerArgs) (mem : Mem) : option Mem :=
  match ws with
  | [] => Some mem
  | w :: ws' => mem' ← workerThreadStart w mem; run_workers ws' mem'
  end.

(** Threads [1 .. numThreads-1] are spawned, the caller runs worker [0]
    and joins the rest.  The workers write disjoint entries of
    [clusterAssignments] and read arrays none of them writes, so the
    phase is modelled by the workers run in spawn order followed by the
    inline one; [run_workers_Permutation] below shows the order of the
    workers does not matter. *)
Definition computeAssignments (args : WorkerArgs) (numThreads : Z)
    (mem : Mem) : option Mem :=
  if bool_decide (0 < numThreads) then
    let arr := args_arr args numThreads in
    run_workers (drop 1 arr ++ take 1 arr) mem
  else None.

(** ** computeCentroids *)

Definition computeCentroids (args : WorkerArgs) (mem : Mem) : option Mem :=
  counts ← new_array (K args) 0;
  (* Zero things out *)
  '(counts, centroids) ←
    For 0 (K args) (λ k '(counts, centroids),
      counts ← store counts k 0;
      centroids ← For 0 (N args) (λ n centroids,
                     store centroids (k * N args + n) 0%float) centroids;
      mret (counts, centroids)) (counts, clusterCentroids mem);
  (* Sum up contributions from assigned examples *)
  '(counts, centroids) ←
    For 0 (M args) (λ m '(counts, centroids),
      k ← load (clusterAssignments mem) m;
      centroids ← For 0 (N args) (λ n centroids,
                     c ← load centroids (k * N args + n);
                     x ← load (data mem) (m * N args + n);
                     store centroids (k * N args + n) (c + x)%float) centroids;
      ck ← load counts k;
      counts ← store counts k (ck + 1);
      mret (counts, centroids)) (counts, centroids);
  (* Compute means *)
  '(_, centroids) ←
    For 0 (K args) (λ k '(counts, centroids),
      ck ← load counts k;
      counts ← store counts k (Z.max ck 1);
      centroids ← For 0 (N args) (λ n centroids,
                     c ← load centroids (k * N args + n);
                     ck ← load counts k;
                     store centroids (k * N args + n) (c / of_int ck)%float)
                   centroids;
      mret (counts, centroids)) (counts, centroids);
  mret (set_clusterCentroids mem centroids).

(** ** computeCost *)

Definition computeCost (args : WorkerArgs) (mem : Mem) : option Mem :=
  accum ← new_array (K args) 0%float;
  accum ← For 0 (K args) (λ k accum, store accum k 0%float) accum;
  accum ←
    For 0 (M args) (λ m accum,
      k ← load (clusterAssignments mem) m;
      a ← load accum k;
      d ← dist (data mem, m * N args)
               (clusterCentroids mem, k * N args) (N args);
      store accum k (a + d)%float) accum;
  cost ← For 0 (K args) (λ k cost,
            a ← load accum k; store cost k a) (currCost mem);
  mret (set_currCost mem cost).

(** ** kMeansThread *)

Inductive Res (A : Type) : Type :=
  | Done (a : A)
  | Undefined
  | Timeout.
Arguments Done {A} a.
Arguments Undefined {A}.
Arguments Timeout {A}.

#[global] Instance Res_ret : MRet Res := λ A a, Done a.
#[global] Instance Res_bind : MBind Res := λ A B f r,
  match r with
  | Done a => f a
  | Undefined => Undefined
  | Timeout => Timeout
  end.

Definition run {A} (o : option A) : Res A :=
  match o with
  | Some a => Done a
  | None => Undefined
  end.

(** [kMeansLoop] is the [while] loop: the stopping condition is tested
    first, one unit of fuel pays for one iteration. *)
Fixpoint kMeansLoop (fuel : nat) (args : WorkerArgs) (numThreads : Z)
    (epsilon : float) (prevCost : list float) (mem : Mem) : Res Mem :=
  stop ← run (stoppingConditionMet prevCost (currCost mem) epsilon (K args));
  if (stop : bool) then Done mem
  else
    match fuel with
    | O => Timeout
    | S fuel' =>
        (* Update cost arrays (for checking convergence criteria) *)
        prevCost ← run (For 0 (K args) (λ k prevCost,
                      c ← load (currCost mem) k; store prevCost k c) prevCost);
        mem ← run (computeAssignments args numThreads mem);
        mem ← run (computeCentroids args mem);
        mem ← run (computeCost args mem);
        kMeansLoop fuel' args numThreads epsilon prevCost mem
    end.

(** What the caller sees when [kMeansThread] returns. *)
Definition outputs (mem : Mem) : list float * list Z :=
  (clusterCentroids mem, clusterAssignments mem).

(** [kMeansThread] with its local [numThreads] as a parameter; the result is
    the pair of in/out arrays, centroids and assignments.  The fields
    [start], [end], [threadId] and [numThreads] of its [args] are never
    read. *)
Definition kMeansThreadWith (numThreads : Z) (fuel : nat)
    (data clusterCentroids : list float) (clusterAssignments : list Z)
    (M N K : Z) (epsilon : float) : Res (list float * list Z) :=
  prevCost ← run (new_array K 0%float);
  currCost ← run (new_array K 0%float);
  let args := {| start := 0; end_ := 0; M := M; N := N; K := K;
                 threadId := 0; numThreads := 0 |} in
  (* Initialize arrays to track cost *)
  '(prevCost, currCost) ←
    run (For 0 K (λ k '(prevCost, currCost),
           prevCost ← store prevCost k HUGE;
           currCost ← store currCost k 0%float;
           mret (prevCost, currCost)) (prevCost, currCost));
  mem ← kMeansLoop fuel args numThreads epsilon prevCost
          (mkMem data clusterCentroids clusterAssignments currCost);
  mret (outputs mem).

(** The source fixes [numThreads = 16]. *)
Definition kMeansThread := kMeansThreadWith 16.

(** ** saxpy

    The ISPC kernels that follow in the same source file.  Their [float] is
    binary32, which the kernel of Rocq does not have: the model is
    parametric in the element type [F] and in its product and sum.  A
    [foreach] touches, for each index of its range, that index only; it is
    a [For].  The tasks of a [launch] write disjoint ranges and are run in
    the order of their [taskIndex]. *)

Section SaxpyModel.
Context {F : Type} (fmul fadd : F → F → F).

(** [result[i] = scale * X[i] + Y[i]]. *)
Definition saxpy_at (scale : F) (X Y : list F) (i : Z) (result : list F) :
    option (list F) :=
  x ← load X i;
  y ← load Y i;
  store result i (fadd (fmul scale x) y).

(** Index [i] of [r] holds [scale * X[i] + Y[i]]. *)
Definition saxpy_stored (scale : F) (X Y r : list F) (i : Z) : Prop :=
  ∃ x y, load X i = Some x ∧ load Y i = Some y ∧
         load r i = Some (fadd (fmul scale x) y).

Definition saxpy_ispc (N : Z) (scale : F) (X Y result : list F) :
    option (list F) :=
  For 0 N (saxpy_at scale X Y) result.

Definition saxpy_ispc_task (taskIndex N span : Z) (scale : F)
    (X Y result : list F) : option (list F) :=
  let indexStart := taskIndex * span in
  let indexEnd := Z.min N (indexStart + span) in
  For indexStart indexEnd (saxpy_at scale X Y) result.

(** [span = N / 64] and [launch[N/span]]: the second division is by zero
    when [span] is. *)
Definition saxpy_ispc_withtasks (N : Z) (scale : F) (X Y result : list F) :
    option (list F) :=
  let span := N `quot` 64 in
  if bool_decide (span = 0) then None
  else
    For 0 (N `quot` span)
      (λ taskIndex, saxpy_ispc_task taskIndex N span scale X Y) result.
End SaxpyModel.

(** * Specification vocabulary *)

(** Where the arrays have the sizes the documentation of [kMeansThread]
    gives them, and the index products fit in [int]. *)
Record wf (args : WorkerArgs) (mem : Mem) : Prop := mk_wf {
  wf_M : 0 ≤ M args ≤ INT_MAX;
  wf_N : 0 ≤ N args ≤ INT_MAX;
  wf_K : 0 ≤ K args ≤ INT_MAX;
  wf_MN : M args * N args ≤ INT_MAX;
  wf_KN : K args * N args ≤ INT_MAX;
  wf_data : Z.of_nat (length (data mem)) = M args * N args;
  wf_centroids : Z.of_nat (length (clusterCentroids mem)) = K args * N args;
  wf_assignments : Z.of_nat (length (clusterAssignments mem)) = M args
}.

(** The distance the kernel computes for point [m] and centroid [k]. *)
Definition dist_to (nDim : Z) (dat cen : list float) (m k : Z) : option float :=
  dist (dat, m * nDim) (cen, k * nDim) nDim.

(** The running minimum and its index after the first [n] centroids have
    been compared for point [m]: the state of the [k]-loop of
    [workerThreadStart]. *)
Fixpoint nearest_upto (nDim : Z) (dat cen : list float) (m : Z) (n : nat) :
    option (float * Z) :=
  match n with
  | O => Some (HUGE, -1)
  | S n' =>
      '(md, best) ← nearest_upto nDim dat cen m n';
      d ← dist_to nDim dat cen m (Z.of_nat n');
      Some (if (d <? md)%float then (d, Z.of_nat n') else (md, best))
  end.

(** The index [m] lies in the range of worker [w]. *)
Definition in_range (m : Z) (w : WorkerArgs) : Prop :=
  start w ≤ m < end_ w.

(** A worker record made for the dimensions of [args] with a range inside
    [[0, M)]. *)
Definition worker_of (args w : WorkerArgs) : Prop :=
  M w = M args ∧ N w = N args ∧ K w = K args ∧
  0 ≤ start w ≤ end_ w ∧ end_ w ≤ M args.

(** The points of the first [m] that are assigned to cluster [k], in index
    order. *)
Definition members (asg : list Z) (k m : Z) : list Z :=
  filter (λ j, load asg j = Some k) (seqZ 0 m).

(** Coordinate [d] of point [j]. *)
Definition coord (nDim : Z) (dat : list float) (j d : Z) : float :=
  default 0%float (load dat (j * nDim + d)).

(** The sum of coordinate [d] over the members of cluster [k], added in
    index order starting from [0.0]. *)
Definition cluster_sum (nDim : Z) (dat : list float) (asg : list Z)
    (k d m : Z) : float :=
  foldl (λ acc j, acc + coord nDim dat j d)%float 0%float (members asg k m).

(** The arithmetic mean of coordinate [d] over the points assigned to
    cluster [k], with the count replaced by [1] for an empty cluster. *)
Definition cluster_mean (nDim : Z) (dat : list float) (asg : list Z)
    (k d m : Z) : float :=
  (cluster_sum nDim dat asg k d m /
   of_int (Z.max (Z.of_nat (length (members asg k m))) 1))%float.

(** The sum, in index order starting from [0.0], of the distances from the
    members of cluster [k] among the first [m] points to centroid [k]. *)
Definition cluster_cost (nDim : Z) (dat cen : list float) (asg : list Z)
    (k m : Z) : float :=
  foldl (λ acc j, acc + default 0 (dist_to nDim dat cen j k))%float 0%float
    (members asg k m).

(** Every entry of the first [M] is a cluster index. *)
Definition assigned_in_range (args : WorkerArgs) (asg : list Z) : Prop :=
  ∀ m, 0 ≤ m < M args → ∃ k, load asg m = Some k ∧ 0 ≤ k < K args.

(** The centroids of [mem] are the means of the points as [mem] assigns
    them. *)
Definition centroids_are_means (args : WorkerArgs) (mem : Mem) : Prop :=
  ∀ k d, 0 ≤ k < K args → 0 ≤ d < N args →
    load (clusterCentroids mem) (k * N args + d) =
      Some (cluster_mean (N args) (data mem) (clusterAssignments mem)
              k d (M args)).

(** A value of binary64 that is a NaN or has a clear sign bit: it is not
    below zero and is not [-0.0]. *)
Definition SFnonneg (f : spec_float) : Prop :=
  match f with
  | S754_nan => True
  | S754_zero s | S754_infinity s | S754_finite s _ _ => s = false
  end.

(** * Concrete inputs *)

Module Ex.
Local Open Scope float_scope.

(** [1e-6], rounded to binary64. *)
Definition eps : float := 0x1.0c6f7a0b5ed8dp-20.

(** Four points on a line, [{0, 1, 10, 11}], and two seeds. *)
Definition pts4 : list float := [0; 1; 10; 11].
Definition seeds2 : list float := [0.5; 10.5].
Definition args4 : WorkerArgs :=
  {| start := 0; end_ := 4; M := 4; N := 1; K := 2;
     threadId := 0; numThreads := 1 |}.
Definition mem4 (asg : list Z) : Mem := mkMem pts4 seeds2 asg [0; 0].

(** Twenty points at [1.0], centroids [0.0] and [5.0], and a stale
    assignment vector. *)
Definition args20 : WorkerArgs :=
  {| start := 0; end_ := 0; M := 20; N := 1; K := 2;
     threadId := 0; numThreads := 0 |}.
Definition mem20 : Mem :=
  mkMem (replicate 20 1) [0; 5] (replicate 20 7%Z) [0; 0].

(** One point farther than the sentinel from the only centroid:
    the distance is [2^100 > 1e30]. *)
Definition far : float := 0x1p+100.
Definition args1 : WorkerArgs :=
  {| start := 0; end_ := 1; M := 1; N := 1; K := 1;
     threadId := 0; numThreads := 1 |}.
Definition mem1 (asg : list Z) : Mem := mkMem [far] [0] asg [0].
End Ex.

(** * Reasoning about arrays and loops *)

Section Arrays.
Context {A : Type}.
Implicit Types (a : list A) (i j : Z) (v x : A).

Lemma load_Some a i x :
  load a i = Some x ↔ 0 ≤ i ∧ a !! Z.to_nat i = Some x.
Proof. unfold load. case_bool_decide; [tauto|]. split; [done|tauto]. Qed.

Lemma load_Some_lt a i x : load a i = Some x → 0 ≤ i < Z.of_nat (length a).
Proof.
  rewrite load_Some. intros [? Hl]. apply lookup_lt_Some in Hl. lia.
Qed.

Lemma load_is_Some a i : 0 ≤ i < Z.of_nat (length a) → is_Some (load a i).
Proof.
  intros ?. unfold load. rewrite bool_decide_true by lia.
  apply lookup_lt_is_Some. lia.
Qed.

Lemma load_None a i : load a i = None ↔ ¬ (0 ≤ i < Z.of_nat (length a)).
Proof.
  split.
  - intros Hn Hi. destruct (load_is_Some a i Hi) as [? ?]. congruence.
  - intros Hi. destruct (load a i) eqn:E; [|done].
    apply load_Some_lt in E. done.
Qed.

Lemma store_Some a i v a' :
  store a i v = Some a' ↔
  0 ≤ i < Z.of_nat (length a) ∧ a' = <[Z.to_nat i := v]> a.
Proof.
  unfold store. case_bool_decide.
  - split; [intros [= <-]; done|intros [_ ->]; done].
  - split; [done|tauto].
Qed.

Lemma store_is_Some a i v :
  0 ≤ i < Z.of_nat (length a) → store a i v = Some (<[Z.to_nat i := v]> a).
Proof. intros. unfold store. by rewrite bool_decide_true. Qed.

Lemma store_length a i v a' : store a i v = Some a' → length a' = length a.
Proof. rewrite store_Some. intros [_ ->]. apply length_insert. Qed.

Lemma load_store_eq a i v a' : store a i v = Some a' → load a' i = Some v.
Proof.
  rewrite store_Some. intros [? ->]. apply load_Some. split; [lia|].
  apply list_lookup_insert_eq. lia.
Qed.

Lemma load_store_ne a i j v a' :
  store a i v = Some a' → j ≠ i → load a' j = load a j.
Proof.
  rewrite store_Some. intros [? ->] ?. unfold load.
  case_bool_decide; [|done]. apply list_lookup_insert_ne. lia.
Qed.

Lemma list_eq_load a b :
  length a = length b →
  (∀ i, 0 ≤ i < Z.of_nat (length a) → load a i = load b i) →
  a = b.
Proof.
  intros Hlen Hl. apply list_eq. intros n.
  destruct (decide (n < length a)%nat) as [Hn|Hn].
  - specialize (Hl (Z.of_nat n)). unfold load in Hl.
    rewrite bool_decide_true, Nat2Z.id in Hl by lia. apply Hl. lia.
  - rewrite !lookup_ge_None_2 by lia. done.
Qed.

Lemma load_replicate n x i :
  0 ≤ i < Z.of_nat n → load (replicate n x) i = Some x.
Proof.
  intros. apply load_Some. split; [lia|]. apply lookup_replicate_2. lia.
Qed.
End Arrays.

Section Loops.
Context {S : Type}.
Implicit Types (body : Z → S → option S) (s : S).

Lemma For_done lo hi body s : hi ≤ lo → For lo hi body s = Some s.
Proof. intros. unfold For. by replace (Z.to_nat (hi - lo)) with O by lia. Qed.

Lemma For_unfold lo hi body s :
  lo < hi → For lo hi body s = body lo s ≫= For (lo + 1) hi body.
Proof.
  intros. unfold For.
  replace (Z.to_nat (hi - lo)) with (Datatypes.S (Z.to_nat (hi - (lo + 1)))) by lia.
  done.
Qed.

(** Total correctness: the body keeps the invariant and does not fail, so
    the loop returns a state satisfying it. *)
Lemma For_inv (P : Z → S → Prop) lo hi body s :
  lo ≤ hi →
  P lo s →
  (∀ i s, lo ≤ i < hi → P i s → ∃ s', body i s = Some s' ∧ P (i + 1) s') →
  ∃ s', For lo hi body s = Some s' ∧ P hi s'.
Proof.
  intros Hle. remember (Z.to_nat (hi - lo)) as n eqn:Hn.
  revert lo s Hle Hn. induction n as [|n IH]; intros lo s Hle Hn HP Hbody.
  - assert (lo = hi) as -> by lia. exists s. by rewrite For_done.
  - rewrite For_unfold by lia.
    destruct (Hbody lo s) as (s1 & -> & HP1); [lia|done|]. simpl.
    apply IH; [lia|lia|done|]. intros i s2 ?. apply Hbody. lia.
Qed.

(** Partial correctness: whatever the loop returns satisfies the
    invariant. *)
Lemma For_inv_Some (P : Z → S → Prop) lo hi body s s' :
  lo ≤ hi →
  P lo s →
  (∀ i s s', lo ≤ i < hi → P i s → body i s = Some s' → P (i + 1) s') →
  For lo hi body s = Some s' →
  P hi s'.
Proof.
  intros Hle. remember (Z.to_nat (hi - lo)) as n eqn:Hn.
  revert lo s Hle Hn. induction n as [|n IH]; intros lo s Hle Hn HP Hbody.
  - assert (lo = hi) as -> by lia. rewrite For_done by lia. congruence.
  - rewrite For_unfold by lia. intros Hr.
    destruct (body lo s) as [s1|] eqn:E; [|done]. simpl in Hr.
    eapply (IH (lo + 1) s1); [lia|lia| |  |done].
    + eapply Hbody; [|done|done]. lia.
    + intros i s2 s3 ?. apply Hbody. lia.
Qed.

Lemma For_ext lo hi body body' s :
  (∀ i s, lo ≤ i < hi → body i s = body' i s) →
  For lo hi body s = For lo hi body' s.
Proof.
  unfold For. remember (Z.to_nat (hi - lo)) as n eqn:Hn.
  revert lo s Hn. induction n as [|n IH]; intros lo s Hn Hb; [done|].
  simpl. rewrite Hb by lia. destruct (body' lo s); [|done]. simpl.
  apply IH; [lia|]. intros. apply Hb. lia.
Qed.
End Loops.

(** Apply the total-correctness rule to the outermost loop of the goal. *)
Ltac for_inv P :=
  match goal with
  | |- context [For ?lo ?hi ?b ?s] =>
      let st := fresh "st" in
      let Hfor := fresh "Hfor" in
      let Hinv := fresh "Hinv" in
      destruct (For_inv P lo hi b s) as (st & Hfor & Hinv);
      [ | | | rewrite Hfor; simpl ]
  end.

(** * The order on binary64

    The comparisons of [float] are those of its specification
    [SFcompare]; the facts below hold for every value, NaN included (every
    comparison with a NaN is [false]). *)

Section FloatOrder.
Local Open Scope float_scope.

Local Ltac sf_cases :=
  repeat match goal with
  | x : spec_float |- _ => destruct x as [[]|[]| |[] ? ?]
  end; simpl in *; try congruence; try tauto.

Local Ltac cmp_cases :=
  change (Pos.compare_cont Eq) with Pos.compare in *;
  repeat match goal with
  | H : context [ (?a ?= ?b)%Z ] |- _ =>
      destruct (Z.compare_spec a b); simpl in H; try discriminate
  | H : context [ (?a ?= ?b)%positive ] |- _ =>
      destruct (Pos.compare_spec a b); simpl in H; try discriminate
  | |- context [ (?a ?= ?b)%Z ] =>
      destruct (Z.compare_spec a b); simpl; try discriminate
  | |- context [ (?a ?= ?b)%positive ] =>
      destruct (Pos.compare_spec a b); simpl; try discriminate
  end; subst; try lia; try congruence; try tauto.

Lemma SFltb_trans x y z :
  SFltb x y = true → SFltb y z = true → SFltb x z = true.
Proof. unfold SFltb. sf_cases; intros; cmp_cases. Qed.

Lemma SFleb_ltb_trans x y z :
  SFleb x y = true → SFltb y z = true → SFltb x z = true.
Proof. unfold SFltb, SFleb. sf_cases; intros; cmp_cases. Qed.

Lemma SFltb_leb x y : SFltb x y = true → SFleb x y = true.
Proof. unfold SFltb, SFleb. sf_cases; intros; cmp_cases. Qed.

Lemma SFltb_irrefl x : SFltb x x = false.
Proof. unfold SFltb. sf_cases; intros; cmp_cases. Qed.

Lemma SFltb_total x y :
  SFltb x y = false → SFeqb x x = true → SFeqb y y = true →
  SFleb y x = true.
Proof. unfold SFltb, SFleb, SFeqb. sf_cases; intros; cmp_cases. Qed.

Lemma ltb_trans (x y z : float) :
  (x <? y) = true → (y <? z) = true → (x <? z) = true.
Proof. rewrite !FloatAxioms.ltb_spec. apply SFltb_trans. Qed.

Lemma leb_ltb_trans (x y z : float) :
  (x <=? y) = true → (y <? z) = true → (x <? z) = true.
Proof.
  rewrite !FloatAxioms.ltb_spec, FloatAxioms.leb_spec.
  apply SFleb_ltb_trans.
Qed.

Lemma ltb_leb (x y : float) : (x <? y) = true → (x <=? y) = true.
Proof. rewrite FloatAxioms.ltb_spec, FloatAxioms.leb_spec. apply SFltb_leb. Qed.

Lemma ltb_irrefl (x : float) : (x <? x) = false.
Proof. rewrite FloatAxioms.ltb_spec. apply SFltb_irrefl. Qed.

Lemma SFltb_eqb_refl x y : SFltb x y = true → SFeqb x x = true.
Proof. unfold SFltb, SFeqb. sf_cases; intros; cmp_cases. Qed.

Lemma SFleb_ltb_false x y : SFleb x y = true → SFltb y x = false.
Proof. unfold SFltb, SFleb. sf_cases; intros; cmp_cases. Qed.

Lemma ltb_eqb_refl (x y : float) : (x <? y) = true → (x =? x) = true.
Proof. rewrite FloatAxioms.ltb_spec, FloatAxioms.eqb_spec. apply SFltb_eqb_refl. Qed.

Lemma leb_ltb_false (x y : float) : (x <=? y) = true → (y <? x) = false.
Proof. rewrite FloatAxioms.ltb_spec, FloatAxioms.leb_spec. apply SFleb_ltb_false. Qed.

(** [x =? x] holds exactly when [x] is not a NaN. *)
Lemma ltb_false_leb (x y : float) :
  (x <? y) = false → (x =? x) = true → (y =? y) = true →
  (y <=? x) = true.
Proof.
  rewrite FloatAxioms.ltb_spec, FloatAxioms.leb_spec, !FloatAxioms.eqb_spec.
  apply SFltb_total.
Qed.
End FloatOrder.

(** * The assignment kernel *)

Lemma nearest_upto_succ nDim dat cen m k :
  0 ≤ k →
  nearest_upto nDim dat cen m (Z.to_nat (k + 1)) =
    '(md, best) ← nearest_upto nDim dat cen m (Z.to_nat k);
    d ← dist_to nDim dat cen m k;
    Some (if (d <? md)%float then (d, k) else (md, best)).
Proof.
  intros. replace (Z.to_nat (k + 1)) with (S (Z.to_nat k)) by lia.
  simpl. by rewrite Z2Nat.id.
Qed.

Lemma dist_is_Some x xo y yo nDim :
  0 ≤ nDim →
  0 ≤ xo → xo + nDim ≤ Z.of_nat (length x) →
  0 ≤ yo → yo + nDim ≤ Z.of_nat (length y) →
  is_Some (dist (x, xo) (y, yo) nDim).
Proof.
  intros. unfold dist.
  destruct (For_inv (λ _ _, True) 0 nDim
    (λ i accum, xi ← load (x, xo).1 ((x, xo).2 + i);
                yi ← load (y, yo).1 ((y, yo).2 + i);
                mret (accum + pow2 (xi - yi))%float) 0%float)
    as (acc & -> & _); [done|done| |by eexists].
  intros i acc ? _. simpl.
  destruct (load_is_Some x (xo + i)) as [xi ->]; [lia|].
  destruct (load_is_Some y (yo + i)) as [yi ->]; [lia|].
  simpl. eauto.
Qed.

Lemma dist_to_is_Some args mem m k :
  wf args mem → 0 ≤ m < M args → 0 ≤ k < K args →
  is_Some (dist_to (N args) (data mem) (clusterCentroids mem) m k).
Proof.
  intros [] ??. apply dist_is_Some; nia.
Qed.

Lemma nearest_upto_is_Some args mem m n :
  wf args mem → 0 ≤ m < M args → Z.of_nat n ≤ K args →
  is_Some (nearest_upto (N args) (data mem) (clusterCentroids mem) m n).
Proof.
  intros Hwf Hm. induction n as [|n IH]; intros Hn; simpl; [by eexists|].
  destruct IH as [[md b] ->]; [lia|]. simpl.
  destruct (dist_to_is_Some args mem m (Z.of_nat n)) as [d ->]; [done|done|lia|].
  simpl. by eexists.
Qed.

(** What the scan has found after [n] centroids: either nothing was below
    the sentinel, or [best] is an index whose distance [md] is below the
    sentinel, no distance seen is strictly smaller, and every earlier index
    is not even as small. *)
Lemma nearest_upto_spec nDim dat cen m n md best :
  nearest_upto nDim dat cen m n = Some (md, best) →
  (best = -1 ∧ md = HUGE ∧
   ∀ k d, 0 ≤ k < Z.of_nat n → dist_to nDim dat cen m k = Some d →
          (d <? HUGE)%float = false)
  ∨
  (0 ≤ best < Z.of_nat n ∧
   dist_to nDim dat cen m best = Some md ∧
   (md <? HUGE)%float = true ∧
   (∀ k d, 0 ≤ k < Z.of_nat n → dist_to nDim dat cen m k = Some d →
           (d <? md)%float = false) ∧
   (∀ k d, 0 ≤ k < best → dist_to nDim dat cen m k = Some d →
           (d <=? md)%float = false)).
Proof.
  revert md best. induction n as [|n IH]; intros md best; simpl.
  - intros [= <- <-]. left. split_and!; [done|done|]. intros; lia.
  - intros Hs. destruct (nearest_upto nDim dat cen m n) as [[md0 b0]|]; [|done].
    simpl in Hs. destruct (dist_to nDim dat cen m (Z.of_nat n)) as [dn|] eqn:Hdn; [|done].
    simpl in Hs. specialize (IH md0 b0 eq_refl).
    destruct (dn <? md0)%float eqn:Hlt; injection Hs as <- <-.
    + (* a new strict minimum at index n *)
      right. split_and!; [lia|lia|done| | |].
      * destruct IH as [(_ & -> & _)|(_ & _ & Hh & _)]; [done|].
        by eapply ltb_trans.
      * intros k d Hk Hd.
        destruct (decide (k = Z.of_nat n)) as [->|].
        { assert (d = dn) as -> by congruence. apply ltb_irrefl. }
        assert ((d <? md0)%float = false) as Hk0.
        { destruct IH as [(_ & -> & Hall)|(_ & _ & _ & Hall & _)];
            (eapply Hall; [|done]; lia). }
        destruct (d <? dn)%float eqn:E; [|done].
        rewrite (ltb_trans _ _ _ E Hlt) in Hk0. done.
      * intros k d Hk Hd.
        assert ((d <? md0)%float = false) as Hk0.
        { destruct IH as [(_ & -> & Hall)|(_ & _ & _ & Hall & _)];
            (eapply Hall; [|done]; lia). }
        destruct (d <=? dn)%float eqn:E; [|done].
        rewrite (leb_ltb_trans _ _ _ E Hlt) in Hk0. done.
    + (* the minimum stands *)
      destruct IH as [(-> & -> & Hall)|(Hb & Hd0 & Hh & Hall & Hfirst)].
      * left. split_and!; [done|done|]. intros k d Hk Hd.
        destruct (decide (k = Z.of_nat n)) as [->|]; [congruence|].
        eapply Hall; [|done]. lia.
      * right. split_and!; [lia|lia|done|done| |done]. intros k d Hk Hd.
        destruct (decide (k = Z.of_nat n)) as [->|]; [congruence|].
        eapply Hall; [|done]. lia.
Qed.

Lemma workerThreadStart_spec args mem :
  wf args mem →
  0 ≤ start args ≤ end_ args → end_ args ≤ M args →
  ∃ asg',
    workerThreadStart args mem = Some (set_clusterAssignments mem asg') ∧
    length asg' = length (clusterAssignments mem) ∧
    (∀ m, start args ≤ m < end_ args →
       ∃ md best,
         nearest_upto (N args) (data mem) (clusterCentroids mem) m
           (Z.to_nat (K args)) = Some (md, best) ∧
         load asg' m = Some best) ∧
    (∀ m, ¬ (start args ≤ m < end_ args) →
       load asg' m = load (clusterAssignments mem) m).
Proof.
  intros Hwf Hse HeM. pose proof Hwf as [].
  unfold workerThreadStart.
  set (s := start args) in *. set (e := end_ args) in *.
  set (asg0 := clusterAssignments mem) in *.
  unfold new_array. rewrite bool_decide_true by lia. simpl.
  (* Initialization. *)
  for_inv (λ i (st : list float * list Z),
    length st.1 = Z.to_nat (e - s) ∧ length st.2 = length asg0 ∧
    (∀ j, 0 ≤ j < i → load st.1 j = Some HUGE ∧ load st.2 (s + j) = Some (-1)) ∧
    (∀ m, ¬ (s ≤ m < s + i) → load st.2 m = load asg0 m)).
  { lia. }
  { simpl. split_and!; [by rewrite length_replicate|done|intros; lia|done]. }
  { intros i [md asg] Hi (Hl1 & Hl2 & Hset & Hout). simpl in *.
    rewrite store_is_Some by lia. simpl.
    rewrite store_is_Some by lia. simpl.
    eexists. split; [done|]. simpl.
    split_and!; [by rewrite length_insert|by rewrite length_insert| |].
    - intros j Hj. destruct (decide (j = i)) as [->|].
      + split; eapply load_store_eq; apply store_is_Some; lia.
      + destruct (Hset j) as [? ?]; [lia|].
        split.
        * erewrite load_store_ne; [done|apply store_is_Some; lia|done].
        * erewrite load_store_ne; [done|apply store_is_Some; lia|lia].
    - intros m Hm. erewrite load_store_ne; [|apply store_is_Some; lia|lia].
      apply Hout. lia. }
  destruct st as [md1 asg1]. destruct Hinv as (Hl1 & Hl2 & Hset & Hout).
  simpl in *.
  (* Assign datapoints to closest centroids *)
  for_inv (λ i (st : list float * list Z),
    length st.1 = Z.to_nat (e - s) ∧ length st.2 = length asg0 ∧
    (∀ j, i ≤ j < e - s →
       load st.1 j = Some HUGE ∧ load st.2 (s + j) = Some (-1)) ∧
    (∀ j, 0 ≤ j < i →
       ∃ md best,
         nearest_upto (N args) (data mem) (clusterCentroids mem) (s + j)
           (Z.to_nat (K args)) = Some (md, best) ∧
         load st.2 (s + j) = Some best) ∧
    (∀ m, ¬ (s ≤ m < e) → load st.2 m = load asg0 m)).
  { lia. }
  { simpl. split_and!; [done|done| |intros; lia|].
    - intros j Hj. apply Hset. lia.
    - intros m Hm. apply Hout. lia. }
  { intros i [md asg] Hi (Hm1 & Hm2 & Hrest & Hdone & Hout2). simpl in *.
    destruct (Hrest i) as [Hmdi Hasgi]; [lia|].
    for_inv (λ k (st : list float * list Z),
      length st.1 = Z.to_nat (e - s) ∧ length st.2 = length asg0 ∧
      (∃ v best,
         nearest_upto (N args) (data mem) (clusterCentroids mem) (s + i)
           (Z.to_nat k) = Some (v, best) ∧
         load st.1 i = Some v ∧ load st.2 (s + i) = Some best) ∧
      (∀ j, j ≠ i → load st.1 j = load md j) ∧
      (∀ m, m ≠ s + i → load st.2 m = load asg m)).
    { lia. }
    { simpl. split_and!; [done|done| |done|done]. by exists HUGE, (-1). }
    { intros k [mdk asgk] Hk (Hk1 & Hk2 & (v & best & Hn & Hv & Hb) & Ho1 & Ho2).
      simpl in *.
      destruct (dist_to_is_Some args mem (s + i) k) as [d Hd]; [done|lia|lia|].
      unfold dist_to in Hd. rewrite Hd. simpl. rewrite Hv. simpl.
      rewrite nearest_upto_succ, Hn by lia. simpl.
      unfold dist_to. rewrite Hd. simpl.
      destruct (d <? v)%float.
      - rewrite store_is_Some by lia. simpl.
        rewrite store_is_Some by lia. simpl.
        eexists. split; [done|]. simpl.
        split_and!; [by rewrite length_insert|by rewrite length_insert| | |].
        + exists d, k. split_and!; [done| |];
            eapply load_store_eq; apply store_is_Some; lia.
        + intros j Hj. erewrite load_store_ne; [|apply store_is_Some; lia|done].
          by apply Ho1.
        + intros m Hm. erewrite load_store_ne; [|apply store_is_Some; lia|done].
          by apply Ho2.
      - eexists. split; [done|]. simpl. split_and!; [done|done| |done|done].
        by exists v, best. }
    destruct st as [mdK asgK].
    destruct Hinv as (HK1 & HK2 & (v & best & Hn & Hv & Hb) & Ho1 & Ho2).
    simpl in *. eexists. split; [done|]. simpl.
    split_and!; [done|done| | |].
    - intros j Hj. rewrite Ho1, Ho2 by lia. apply Hrest. lia.
    - intros j Hj. destruct (decide (j = i)) as [->|].
      + by exists v, best.
      + rewrite Ho2 by lia. apply Hdone. lia.
    - intros m Hm. rewrite Ho2 by lia. by apply Hout2. }
  destruct st as [md2 asg2].
  destruct Hinv as (Hm1 & Hm2 & _ & Hdone & Hout2). simpl in *.
  exists asg2. split_and!; [done|done| |done].
  intros m Hm. replace m with (s + (m - s)) by lia. apply Hdone. lia.
Qed.

(** * The dispatcher *)

Lemma wf_worker args w mem : worker_of args w → wf args mem → wf w mem.
Proof.
  intros (HM & HN & HK & _) []. constructor; rewrite ?HM, ?HN, ?HK; done.
Qed.

Lemma wf_set_clusterAssignments args mem asg :
  length asg = length (clusterAssignments mem) →
  wf args mem → wf args (set_clusterAssignments mem asg).
Proof. intros Hl []. constructor; simpl; try done. by rewrite Hl. Qed.

(** Each entry in the range of some worker of the list holds the index
    found by the scan; the other entries are as before. *)
Lemma run_workers_spec args ws mem :
  wf args mem →
  Forall (worker_of args) ws →
  ∃ asg',
    run_workers ws mem = Some (set_clusterAssignments mem asg') ∧
    length asg' = length (clusterAssignments mem) ∧
    (∀ m, Exists (in_range m) ws →
       ∃ md best,
         nearest_upto (N args) (data mem) (clusterCentroids mem) m
           (Z.to_nat (K args)) = Some (md, best) ∧
         load asg' m = Some best) ∧
    (∀ m, ¬ Exists (in_range m) ws →
       load asg' m = load (clusterAssignments mem) m).
Proof.
  intros Hwf Hws. revert mem Hwf.
  induction Hws as [|w ws Hw Hws IH]; intros mem Hwf.
  - exists (clusterAssignments mem). destruct mem. simpl.
    split_and!; [done|done| |done]. intros m Hm. by apply Exists_nil in Hm.
  - pose proof Hw as (HM & HN & HK & Hse & HeM).
    destruct (workerThreadStart_spec w mem) as (asg1 & Hrun & Hl1 & Hin1 & Hout1);
      [by eapply wf_worker|done|lia|].
    simpl. rewrite Hrun. simpl.
    destruct (IH (set_clusterAssignments mem asg1)) as (asg2 & Hrun2 & Hl2 & Hin2 & Hout2);
      [by apply wf_set_clusterAssignments|].
    simpl in *. exists asg2. split_and!; [done|congruence| |].
    + intros m Hm.
      destruct (decide (Exists (in_range m) ws)) as [Hex|Hnex]; [by apply Hin2|].
      apply Exists_cons in Hm as [Hm|Hm]; [|done].
      rewrite (Hout2 m Hnex). rewrite <- HN, <- HK. by apply Hin1.
    + intros m Hm. rewrite Exists_cons in Hm.
      rewrite Hout2 by tauto. apply Hout1. unfold in_range in Hm. tauto.
Qed.

(** The order in which the workers run does not matter. *)
Lemma run_workers_Permutation args ws ws' mem :
  wf args mem →
  Forall (worker_of args) ws →
  ws ≡ₚ ws' →
  run_workers ws mem = run_workers ws' mem.
Proof.
  intros Hwf Hws Hp.
  destruct (run_workers_spec args ws mem) as (a1 & -> & Hl1 & Hin1 & Hout1); [done|done|].
  destruct (run_workers_spec args ws' mem) as (a2 & -> & Hl2 & Hin2 & Hout2);
    [done|by rewrite <- Hp|].
  f_equal. f_equal. apply list_eq_load; [congruence|]. intros m _.
  destruct (decide (Exists (in_range m) ws)) as [Hex|Hnex].
  - destruct (Hin1 m Hex) as (md & b & Hn & ->).
    destruct (Hin2 m) as (md' & b' & Hn' & ->); [by rewrite <- Hp|]. congruence.
  - rewrite Hout1 by done. rewrite Hout2; [done|]. by rewrite <- Hp.
Qed.

Section Partition.
Variables (args : WorkerArgs) (T : Z).
Hypothesis HM : 0 ≤ M args.
Hypothesis HT : 0 < T.

Let q := M args `quot` T.

Lemma quot_bounds : 0 ≤ q ∧ q * T ≤ M args < q * T + T.
Proof.
  subst q. rewrite Z.quot_div_nonneg by lia.
  pose proof (Z.div_mod (M args) T ltac:(lia)).
  pose proof (Z.mod_pos_bound (M args) T HT).
  pose proof (Z.div_pos (M args) T HM HT). nia.
Qed.

Lemma args_arr_lookup (i : Z) :
  0 ≤ i < T →
  args_arr args T !! Z.to_nat i =
    Some {| start := q * i; end_ := Z.min (q * (i + 1)) (M args);
            M := M args; N := N args; K := K args;
            threadId := i; numThreads := T |}.
Proof.
  intros. unfold args_arr. rewrite list_lookup_fmap.
  rewrite lookup_seqZ_lt by lia. simpl. repeat f_equal; lia.
Qed.

Lemma elem_of_args_arr (w : WorkerArgs) :
  w ∈ args_arr args T ↔
  ∃ i, 0 ≤ i < T ∧
    w = {| start := q * i; end_ := Z.min (q * (i + 1)) (M args);
           M := M args; N := N args; K := K args;
           threadId := i; numThreads := T |}.
Proof.
  unfold args_arr. rewrite list_elem_of_fmap. split.
  - intros (i & -> & Hi). apply elem_of_seqZ in Hi. exists i. split; [lia|done].
  - intros (i & Hi & ->). exists i. split; [done|]. apply elem_of_seqZ. lia.
Qed.

(** Every record of [args_arr] carries the dimensions of [args] and a
    range inside [[0, M)]; the [min] with [M] never cuts. *)
Lemma args_arr_worker_of : Forall (worker_of args) (args_arr args T).
Proof.
  apply Forall_forall. intros w Hw.
  apply elem_of_args_arr in Hw as (i & Hi & ->).
  pose proof quot_bounds. unfold worker_of. simpl. nia.
Qed.

(** The indices some worker processes are those below
    [T * (M / T)]. *)
Lemma args_arr_covered (m : Z) :
  Exists (in_range m) (args_arr args T) ↔ 0 ≤ m < q * T.
Proof.
  pose proof quot_bounds as Hq. rewrite Exists_exists. split.
  - intros (w & Hw & Hin). apply elem_of_args_arr in Hw as (i & Hi & ->).
    unfold in_range in Hin. simpl in Hin. nia.
  - intros Hm. assert (0 < q) by nia.
    exists {| start := q * (m / q); end_ := Z.min (q * (m / q + 1)) (M args);
              M := M args; N := N args; K := K args;
              threadId := m / q; numThreads := T |}.
    pose proof (Z.div_mod m q ltac:(lia)).
    pose proof (Z.mod_pos_bound m q ltac:(lia)).
    assert (0 ≤ m / q) by (apply Z.div_pos; lia).
    assert (m / q < T) by (apply Z.div_lt_upper_bound; nia).
    split.
    + apply elem_of_args_arr. exists (m / q). done.
    + unfold in_range. simpl. nia.
Qed.

(** No index is in the range of two workers. *)
Lemma args_arr_disjoint (i j : Z) (wi wj : WorkerArgs) (m : Z) :
  args_arr args T !! Z.to_nat i = Some wi → 0 ≤ i →
  args_arr args T !! Z.to_nat j = Some wj → 0 ≤ j →
  in_range m wi → in_range m wj → i = j.
Proof.
  intros Hi ? Hj ?.
  assert (i < T).
  { apply lookup_lt_Some in Hi. unfold args_arr in Hi.
    rewrite length_fmap, length_seqZ in Hi. lia. }
  assert (j < T).
  { apply lookup_lt_Some in Hj. unfold args_arr in Hj.
    rewrite length_fmap, length_seqZ in Hj. lia. }
  rewrite args_arr_lookup in Hi, Hj by lia.
  injection Hi as <-. injection Hj as <-.
  unfold in_range. simpl. nia.
Qed.

Lemma spawn_order_Permutation :
  drop 1 (args_arr args T) ++ take 1 (args_arr args T) ≡ₚ args_arr args T.
Proof.
  rewrite Permutation_app_comm. by rewrite take_drop.
Qed.
End Partition.

(** The assignment phase with [T] workers: the entries below
    [T * (M / T)] hold the index found by the scan, the rest of the vector
    is not written. *)
Lemma computeAssignments_spec args T mem :
  wf args mem →
  0 < T →
  ∃ asg',
    computeAssignments args T mem = Some (set_clusterAssignments mem asg') ∧
    length asg' = length (clusterAssignments mem) ∧
    (∀ m, 0 ≤ m < M args `quot` T * T →
       ∃ md best,
         nearest_upto (N args) (data mem) (clusterCentroids mem) m
           (Z.to_nat (K args)) = Some (md, best) ∧
         load asg' m = Some best) ∧
    (∀ m, ¬ (0 ≤ m < M args `quot` T * T) →
       load asg' m = load (clusterAssignments mem) m).
Proof.
  intros Hwf HT. pose proof (wf_M _ _ Hwf) as [HM _].
  unfold computeAssignments. rewrite bool_decide_true by done. simpl.
  pose proof (args_arr_worker_of args T HM HT) as Hws.
  rewrite (run_workers_Permutation args _ (args_arr args T))
    by (rewrite ?spawn_order_Permutation; done).
  destruct (run_workers_spec args (args_arr args T) mem)
    as (asg' & Hrun & Hl & Hin & Hout); [done|done|].
  exists asg'. split_and!; [done|done| |].
  - intros m Hm. apply Hin. by apply args_arr_covered.
  - intros m Hm. apply Hout. by rewrite args_arr_covered.
Qed.

(** When the worker count divides [M], the phase does what one worker
    over the whole of [[0, M)] does. *)
Lemma computeAssignments_divides args T mem :
  wf args mem →
  0 < T →
  M args `rem` T = 0 →
  computeAssignments args T mem = computeAssignments args 1 mem.
Proof.
  intros Hwf HT Hrem. pose proof (wf_M _ _ Hwf) as [HM _].
  destruct (computeAssignments_spec args T mem) as (a1 & -> & Hl1 & Hin1 & Hout1);
    [done|done|].
  destruct (computeAssignments_spec args 1 mem) as (a2 & -> & Hl2 & Hin2 & Hout2);
    [done|done|].
  assert (M args `quot` T * T = M args) as HqT.
  { pose proof (Z.quot_rem' (M args) T). lia. }
  assert (M args `quot` 1 * 1 = M args) as Hq1.
  { rewrite Z.quot_1_r. lia. }
  rewrite HqT in *. rewrite Hq1 in *.
  f_equal. f_equal. apply list_eq_load; [congruence|]. intros m Hm.
  destruct (decide (0 ≤ m < M args)) as [Hin|Hnin].
  - destruct (Hin1 m Hin) as (? & ? & ? & ->).
    destruct (Hin2 m Hin) as (? & ? & ? & ->). congruence.
  - by rewrite Hout1, Hout2.
Qed.

(** * The centroid update *)

Lemma members_succ asg k m :
  0 ≤ m →
  members asg k (m + 1) =
    members asg k m ++ (if decide (load asg m = Some k) then [m] else []).
Proof.
  intros. unfold members. rewrite seqZ_app by lia. rewrite filter_app.
  by f_equal.
Qed.

Lemma members_succ_in asg k m :
  0 ≤ m → load asg m = Some k → members asg k (m + 1) = members asg k m ++ [m].
Proof. intros. rewrite members_succ by done. by rewrite decide_True. Qed.

Lemma members_succ_out asg k k' m :
  0 ≤ m → load asg m = Some k' → k ≠ k' →
  members asg k (m + 1) = members asg k m.
Proof.
  intros ? Hl ?. rewrite members_succ by done.
  rewrite decide_False by congruence. apply app_nil_r.
Qed.

Lemma cluster_sum_succ_in nDim dat asg k d m x :
  0 ≤ m → load asg m = Some k → load dat (m * nDim + d) = Some x →
  cluster_sum nDim dat asg k d (m + 1) =
    (cluster_sum nDim dat asg k d m + x)%float.
Proof.
  intros ? Hk Hx. unfold cluster_sum. rewrite members_succ_in by done.
  rewrite foldl_app. simpl. unfold coord. by rewrite Hx.
Qed.

Lemma idx_inj (nDim k d k' d' : Z) :
  0 ≤ d < nDim → 0 ≤ d' < nDim →
  k * nDim + d = k' * nDim + d' → k = k' ∧ d = d'.
Proof. intros. assert (k = k') by nia. subst. lia. Qed.

Lemma computeCentroids_spec args mem :
  wf args mem →
  assigned_in_range args (clusterAssignments mem) →
  ∃ cen',
    computeCentroids args mem = Some (set_clusterCentroids mem cen') ∧
    length cen' = length (clusterCentroids mem) ∧
    ∀ k d, 0 ≤ k < K args → 0 ≤ d < N args →
      load cen' (k * N args + d) =
        Some (cluster_mean (N args) (data mem) (clusterAssignments mem)
                k d (M args)).
Proof.
  intros Hwf Hasg. pose proof Hwf as [].
  unfold computeCentroids, new_array. rewrite bool_decide_true by lia. simpl.
  set (asg := clusterAssignments mem) in *. set (dat := data mem) in *.
  (* Zero things out *)
  for_inv (λ k (st : list Z * list float),
    Z.of_nat (length st.1) = K args ∧
    Z.of_nat (length st.2) = K args * N args ∧
    (∀ k', 0 ≤ k' < k → load st.1 k' = Some 0) ∧
    (∀ k' d, 0 ≤ k' < k → 0 ≤ d < N args →
       load st.2 (k' * N args + d) = Some 0%float)).
  { lia. }
  { simpl. rewrite length_replicate. split_and!; [lia|done|intros; lia|intros; lia]. }
  { intros k [counts cen] Hk (Hc & Hl & Hz1 & Hz2). simpl in *.
    rewrite store_is_Some by lia. simpl.
    for_inv (λ n (c : list float),
      Z.of_nat (length c) = K args * N args ∧
      (∀ d, 0 ≤ d < n → load c (k * N args + d) = Some 0%float) ∧
      (∀ i, ¬ (k * N args ≤ i < k * N args + n) → load c i = load cen i)).
    { lia. }
    { split_and!; [done|intros; lia|done]. }
    { intros n c Hn (Hcl & Hcz & Hco).
      assert (0 ≤ k * N args + n < Z.of_nat (length c)) by nia.
      rewrite store_is_Some by done. eexists. split; [done|].
      split_and!; [by rewrite length_insert| |].
      - intros d Hd. destruct (decide (d = n)) as [->|].
        + eapply load_store_eq. by apply store_is_Some.
        + erewrite load_store_ne; [|by apply store_is_Some|lia]. apply Hcz. lia.
      - intros i Hi. erewrite load_store_ne; [|by apply store_is_Some|lia].
        apply Hco. lia. }
    destruct Hinv as (Hcl & Hcz & Hco).
    eexists. split; [done|]. simpl.
    split_and!; [by rewrite length_insert|done| |].
    - intros k' Hk'. destruct (decide (k' = k)) as [->|].
      + eapply load_store_eq. apply store_is_Some. lia.
      + erewrite load_store_ne; [|apply store_is_Some; lia|done]. apply Hz1. lia.
    - intros k' d Hk' Hd. destruct (decide (k' = k)) as [->|].
      + by apply Hcz.
      + rewrite Hco by nia. apply Hz2; lia. }
  destruct st as [counts1 cen1]. destruct Hinv as (Hc1 & Hl1 & Hz1 & Hz2).
  simpl in *.
  (* Sum up contributions from assigned examples *)
  for_inv (λ m (st : list Z * list float),
    Z.of_nat (length st.1) = K args ∧
    Z.of_nat (length st.2) = K args * N args ∧
    (∀ k, 0 ≤ k < K args →
       load st.1 k = Some (Z.of_nat (length (members asg k m)))) ∧
    (∀ k d, 0 ≤ k < K args → 0 ≤ d < N args →
       load st.2 (k * N args + d) = Some (cluster_sum (N args) dat asg k d m))).
  { lia. }
  { simpl. split_and!; [done|done| |].
    - intros k Hk. by apply Hz1.
    - intros k d Hk Hd. by apply Hz2. }
  { intros m [counts cen] Hm (Hc & Hl & Hcnt & Hsum). simpl in *.
    destruct (Hasg m Hm) as (k & Hak & Hk). rewrite Hak. simpl.
    for_inv (λ n (c : list float),
      Z.of_nat (length c) = K args * N args ∧
      (∀ d, 0 ≤ d < n →
         load c (k * N args + d) =
           Some (cluster_sum (N args) dat asg k d (m + 1))) ∧
      (∀ d, n ≤ d < N args →
         load c (k * N args + d) = Some (cluster_sum (N args) dat asg k d m)) ∧
      (∀ i, ¬ (k * N args ≤ i < k * N args + N args) → load c i = load cen i)).
    { lia. }
    { split_and!; [done|intros; lia| |done]. intros d Hd. apply Hsum; lia. }
    { intros n c Hn (Hcl & Hnew & Hold & Hco).
      rewrite Hold by lia. simpl.
      destruct (load_is_Some dat (m * N args + n)) as [x Hx]; [nia|].
      rewrite Hx. simpl.
      assert (0 ≤ k * N args + n < Z.of_nat (length c)) by nia.
      rewrite store_is_Some by done. eexists. split; [done|].
      split_and!; [by rewrite length_insert| | |].
      - intros d Hd. destruct (decide (d = n)) as [->|].
        + erewrite load_store_eq; [|by apply store_is_Some].
          f_equal. symmetry. apply cluster_sum_succ_in; [lia|done|done].
        + erewrite load_store_ne; [|by apply store_is_Some|lia]. apply Hnew. lia.
      - intros d Hd. erewrite load_store_ne; [|by apply store_is_Some|lia].
        apply Hold. lia.
      - intros i Hi. erewrite load_store_ne; [|by apply store_is_Some|lia].
        by apply Hco. }
    destruct Hinv as (Hcl & Hnew & _ & Hco).
    rewrite Hcnt by done. simpl. rewrite store_is_Some by lia. simpl.
    eexists. split; [done|]. simpl.
    split_and!; [by rewrite length_insert|done| |].
    - intros k' Hk'. destruct (decide (k' = k)) as [->|].
      + erewrite load_store_eq; [|apply store_is_Some; lia].
        rewrite members_succ_in by (done || lia).
        rewrite length_app. simpl. f_equal. lia.
      + erewrite load_store_ne; [|apply store_is_Some; lia|done].
        rewrite (members_succ_out asg k' k) by (done || lia). by apply Hcnt.
    - intros k' d Hk' Hd. destruct (decide (k' = k)) as [->|].
      + apply Hnew. lia.
      + rewrite Hco by nia. unfold cluster_sum.
        rewrite (members_succ_out asg k' k) by (done || lia). by apply Hsum. }
  destruct st as [counts2 cen2]. destruct Hinv as (Hc2 & Hl2 & Hcnt & Hsum).
  simpl in *.
  (* Compute means *)
  for_inv (λ k (st : list Z * list float),
    Z.of_nat (length st.1) = K args ∧
    Z.of_nat (length st.2) = K args * N args ∧
    (∀ k', k ≤ k' < K args →
       load st.1 k' = Some (Z.of_nat (length (members asg k' (M args))))) ∧
    (∀ k' d, 0 ≤ k' < k → 0 ≤ d < N args →
       load st.2 (k' * N args + d) =
         Some (cluster_mean (N args) dat asg k' d (M args))) ∧
    (∀ k' d, k ≤ k' < K args → 0 ≤ d < N args →
       load st.2 (k' * N args + d) =
         Some (cluster_sum (N args) dat asg k' d (M args)))).
  { lia. }
  { simpl. split_and!; [done|done| |intros; lia|].
    - intros k Hk. apply Hcnt. lia.
    - intros k d Hk Hd. apply Hsum; lia. }
  { intros k [counts cen] Hk (Hc & Hl & Hcn & Hmean & Hs). simpl in *.
    rewrite Hcn by lia. simpl. rewrite store_is_Some by lia. simpl.
    set (c := Z.of_nat (length (members asg k (M args)))) in *.
    for_inv (λ n (ce : list float),
      Z.of_nat (length ce) = K args * N args ∧
      (∀ d, 0 ≤ d < n →
         load ce (k * N args + d) =
           Some (cluster_mean (N args) dat asg k d (M args))) ∧
      (∀ d, n ≤ d < N args →
         load ce (k * N args + d) =
           Some (cluster_sum (N args) dat asg k d (M args))) ∧
      (∀ i, ¬ (k * N args ≤ i < k * N args + N args) → load ce i = load cen i)).
    { lia. }
    { split_and!; [done|intros; lia| |done]. intros d Hd. apply Hs; lia. }
    { intros n ce Hn (Hcl & Hnew & Hold & Hco).
      rewrite Hold by lia. simpl.
      erewrite load_store_eq; [|apply store_is_Some; lia]. simpl.
      assert (0 ≤ k * N args + n < Z.of_nat (length ce)) by nia.
      rewrite store_is_Some by done. eexists. split; [done|].
      split_and!; [by rewrite length_insert| | |].
      - intros d Hd. destruct (decide (d = n)) as [->|].
        + erewrite load_store_eq; [|by apply store_is_Some]. done.
        + erewrite load_store_ne; [|by apply store_is_Some|lia]. apply Hnew. lia.
      - intros d Hd. erewrite load_store_ne; [|by apply store_is_Some|lia].
        apply Hold. lia.
      - intros i Hi. erewrite load_store_ne; [|by apply store_is_Some|lia].
        by apply Hco. }
    destruct Hinv as (Hcl & Hnew & _ & Hco).
    eexists. split; [done|]. simpl.
    split_and!; [by rewrite length_insert|done| | |].
    - intros k' Hk'. erewrite load_store_ne; [|apply store_is_Some; lia|lia].
      apply Hcn. lia.
    - intros k' d Hk' Hd. destruct (decide (k' = k)) as [->|].
      + apply Hnew. lia.
      + rewrite Hco by nia. apply Hmean; lia.
    - intros k' d Hk' Hd. rewrite Hco by nia. apply Hs; lia. }
  destruct st as [counts3 cen3]. destruct Hinv as (_ & Hl3 & _ & Hmean & _).
  simpl in *. exists cen3. split_and!; [done|lia|].
  intros k d Hk Hd. by apply Hmean.
Qed.

(** If the centroid update returns, it has indexed [counts] with every one
    of the first [M] assignments, so each of them is a cluster index. *)
Lemma computeCentroids_Some args mem mem' :
  computeCentroids args mem = Some mem' →
  assigned_in_range args (clusterAssignments mem) ∧
  clusterAssignments mem' = clusterAssignments mem ∧
  data mem' = data mem.
Proof.
  unfold computeCentroids. intros H.
  apply bind_Some in H as (counts0 & Hnew & H).
  apply bind_Some in H as ([counts1 cen1] & Hzero & H).
  apply bind_Some in H as ([counts2 cen2] & Hsum & H).
  apply bind_Some in H as ([counts3 cen3] & _ & H).
  injection H as <-. split; [|done].
  unfold new_array in Hnew. case_bool_decide as HK; [|done]. injection Hnew as <-.
  assert (Z.of_nat (length counts1) = K args) as Hc1.
  { apply (For_inv_Some (λ _ (st : list Z * list float),
             Z.of_nat (length st.1) = K args)) in Hzero; [done|done| |].
    - simpl. rewrite length_replicate. lia.
    - intros k [c ce] [c' ce'] _ Hl Hb. simpl in *.
      apply bind_Some in Hb as (c1 & Hst & Hb).
      apply bind_Some in Hb as (ce1 & _ & Hb). injection Hb as <- <-.
      apply store_length in Hst. lia. }
  intros m Hm.
  apply (For_inv_Some (λ i (st : list Z * list float),
           Z.of_nat (length st.1) = K args ∧
           ∀ j, 0 ≤ j < i →
             ∃ k, load (clusterAssignments mem) j = Some k ∧ 0 ≤ k < K args))
    in Hsum; [by apply Hsum|lia| |].
  - split; [done|]. intros; lia.
  - intros i [c ce] [c' ce'] Hi [Hl Hprev] Hb. simpl in *.
    apply bind_Some in Hb as (k & Hk & Hb).
    apply bind_Some in Hb as (ce1 & _ & Hb).
    apply bind_Some in Hb as (ck & Hck & Hb).
    apply bind_Some in Hb as (c1 & Hst & Hb). injection Hb as <- <-.
    split; [apply store_length in Hst; lia|].
    intros j Hj. destruct (decide (j = i)) as [->|]; [|apply Hprev; lia].
    exists k. split; [done|]. apply load_Some_lt in Hck. lia.
Qed.

Lemma computeCost_Some args mem mem' :
  computeCost args mem = Some mem' →
  clusterAssignments mem' = clusterAssignments mem ∧
  clusterCentroids mem' = clusterCentroids mem ∧
  data mem' = data mem.
Proof.
  unfold computeCost. intros H.
  apply bind_Some in H as (? & _ & H). apply bind_Some in H as (? & _ & H).
  apply bind_Some in H as (? & _ & H). apply bind_Some in H as (? & _ & H).
  by injection H as <-.
Qed.

(** * The driver *)

Lemma run_Done {A} (o : option A) (a : A) : run o = Done a ↔ o = Some a.
Proof. destruct o; simpl; split; congruence. Qed.

Lemma Res_bind_Done {A B} (f : A → Res B) (r : Res A) (b : B) :
  r ≫= f = Done b ↔ ∃ a, r = Done a ∧ f a = Done b.
Proof.
  destruct r; simpl; split; try done.
  - intros. by eexists.
  - by intros (? & [= <-] & ?).
  - by intros (? & ? & _).
  - by intros (? & ? & _).
Qed.

(** The convergence test returns [true] exactly when no cluster has
    [abs(prevCost[k] - currCost[k]) > epsilon]. *)
Lemma stoppingLoop_true prevCost currCost epsilon n k0 :
  0 ≤ k0 →
  stoppingLoop prevCost currCost epsilon n k0 = Some true ↔
  ∀ k, k0 ≤ k < k0 + Z.of_nat n →
    ∃ p c, load prevCost k = Some p ∧ load currCost k = Some c ∧
           (epsilon <? abs (p - c))%float = false.
Proof.
  revert k0. induction n as [|n IH]; intros k0 Hk0; simpl.
  - split; [intros; lia|done].
  - split.
    + intros H. apply bind_Some in H as (p & Hp & H).
      apply bind_Some in H as (c & Hc & H).
      destruct (epsilon <? abs (p - c))%float eqn:E; [done|].
      pose proof (proj1 (IH (k0 + 1) ltac:(lia)) H) as Hrest. intros k Hk.
      destruct (decide (k = k0)) as [->|]; [by exists p, c|].
      apply Hrest. lia.
    + intros H. destruct (H k0) as (p & c & -> & -> & E); [lia|]. simpl.
      rewrite E. apply IH; [lia|]. intros k Hk. apply H. lia.
Qed.

Lemma stoppingConditionMet_true prevCost currCost epsilon K :
  stoppingConditionMet prevCost currCost epsilon K = Some true ↔
  ∀ k, 0 ≤ k < K →
    ∃ p c, load prevCost k = Some p ∧ load currCost k = Some c ∧
           (epsilon <? abs (p - c))%float = false.
Proof.
  unfold stoppingConditionMet. rewrite stoppingLoop_true by done.
  split; intros H k Hk; apply H; lia.
Qed.

(** * The claims *)

(** The concrete memories are well formed. *)
Lemma wf_mem4 asg : length asg = 4%nat → wf Ex.args4 (Ex.mem4 asg).
Proof. intros Hl. constructor; simpl; rewrite ?Hl; unfold INT_MAX; lia. Defined.

Lemma wf_mem1 asg : length asg = 1%nat → wf Ex.args1 (Ex.mem1 asg).
Proof. intros Hl. constructor; simpl; rewrite ?Hl; unfold INT_MAX; lia. Defined.

(** C1 (defect in the code).  The claim: [computeAssignments] splits the [M]
    points into [T] ranges of size ceil(M/T) whose union is [[0, M)].  The
    code divides with truncation, so the ranges end at [T * (M / T)]: with
    [M = 20] and the sixteen workers of [kMeansThread] each range holds one
    point and the entries 16 to 19 keep their stale content [7]; with
    [M = 3] and four workers every range is empty. *)
Theorem computeAssignments_skips_tail :
  (λ w, (start w, end_ w)) <$> args_arr Ex.args20 16 =
    (λ i, (i, i + 1)) <$> seqZ 0 16 ∧
  clusterAssignments <$> computeAssignments Ex.args20 16 Ex.mem20 =
    Some (replicate 16 0 ++ replicate 4 7) ∧
  (λ w, (start w, end_ w)) <$>
    args_arr {| start := 0; end_ := 0; M := 3; N := 1; K := 2;
                threadId := 0; numThreads := 0 |} 4 =
    [(0, 0); (0, 0); (0, 0); (0, 0)].
Proof. split_and!; vm_compute; reflexivity. Qed.

(** C2 (defect in the code).  The claim: worker counts 1 and 16 give the
    same final assignments and centroids.  On the points [{0, 1, 10, 11}]
    with seeds [{0.5, 10.5}] one worker returns the assignments
    [0, 0, 1, 1] and the centroids [0.5, 10.5]; the sixteen workers of
    [kMeansThread] have empty ranges ([4 / 16 = 0]), the stale assignments
    [0, 0, 0, 0] stand and the centroids come out as [5.5, 0]. *)
Theorem worker_count_changes_result :
  kMeansThreadWith 1 10 Ex.pts4 Ex.seeds2 [0; 0; 0; 0] 4 1 2 Ex.eps =
    Done ([0.5; 10.5]%float, [0; 0; 1; 1]) ∧
  kMeansThread 10 Ex.pts4 Ex.seeds2 [0; 0; 0; 0] 4 1 2 Ex.eps =
    Done ([5.5; 0]%float, [0; 0; 0; 0]).
Proof. split; vm_compute; reflexivity. Qed.

(** C3, counterexample.  With [K = 0] (and [M = N = 1]) [kMeansThread]
    returns normally with the arrays untouched; with [M = 0] it zeroes the
    centroid and returns; with [N = 0] it assigns the sixteen
    zero-dimensional points to cluster [0] and returns.  Nothing is
    rejected. *)
Lemma kMeansThread_accepts_zero_dimensions :
  kMeansThread 0 [1%float] [] [7] 1 1 0 Ex.eps = Done ([], [7]) ∧
  kMeansThread 1 [] [3%float] [] 0 1 1 Ex.eps = Done ([0%float], []) ∧
  kMeansThread 1 [] [] (replicate 16 7) 16 0 1 Ex.eps =
    Done ([], replicate 16 0).
Proof. split_and!; vm_compute; reflexivity. Qed.

(** C3, as amended.  [kMeansThread] validates nothing: for [K = 0],
    whatever [M] and [N] are, the stopping condition holds vacuously and
    the function returns at once with the centroids and the assignments it
    was given. *)
Theorem kMeansThread_no_validation (fuel : nat) (dat cen : list float)
    (asg : list Z) (M N : Z) (epsilon : float) :
  kMeansThread fuel dat cen asg M N 0 epsilon = Done (cen, asg).
Proof. destruct fuel; reflexivity. Qed.

(** C5 (defect in the code).  The claim, with the documentation of
    [kMeansThread]: convergence is declared when every cost changes by
    strictly less than [epsilon].  [stoppingConditionMet] rejects only a
    change strictly greater than [epsilon]: a change of exactly [epsilon]
    ([1.0] to [0.0] with [epsilon = 1.0]) is declared converged although it
    is not strictly less than [epsilon]. *)
Theorem stoppingConditionMet_at_epsilon :
  stoppingConditionMet [1%float] [0%float] 1%float 1 = Some true ∧
  (abs (1 - 0) <? 1)%float = false.
Proof. split; vm_compute; reflexivity. Qed.

(** The cost arrays after the initialisation loop of [kMeansThread]. *)
Lemma init_costs_Some K prev0 curr0 prev curr :
  For 0 K (λ k '(prevCost, currCost),
      prevCost ← store prevCost k HUGE;
      currCost ← store currCost k 0%float;
      mret (prevCost, currCost)) (prev0, curr0) = Some (prev, curr) →
  ∀ k, 0 ≤ k < K → load prev k = Some HUGE ∧ load curr k = Some 0%float.
Proof.
  intros H k Hk.
  refine (For_inv_Some (λ i (st : list float * list float),
            ∀ j, 0 ≤ j < i →
              load st.1 j = Some HUGE ∧ load st.2 j = Some 0%float)
            _ _ _ _ _ _ _ _ H k Hk); [lia|intros; lia|].
  intros i [p c] [p' c'] Hi Hprev Hb. simpl in *.
  apply bind_Some in Hb as (p1 & Hp & Hb).
  apply bind_Some in Hb as (c1 & Hc & Hb). injection Hb as <- <-.
  intros j Hj. destruct (decide (j = i)) as [->|].
  - split; by eapply load_store_eq.
  - destruct (Hprev j) as [? ?]; [lia|].
    split; (erewrite load_store_ne; [done|done|done]).
Qed.

(** C4 (defect in the code).  The claim: after each Assignment phase every
    point index of [[0, M)] holds one cluster index of [[0, K)], and so does
    every entry when [kMeansThread] returns.  With twenty points, [K = 2]
    and the sixteen workers of [kMeansThread], the division [20 / 16]
    truncates to one point per worker: the phase leaves the entries 16 to
    19 at the stale [7] they came with, which is no index of [[0, 2)], and
    the centroid update that follows indexes [counts] with it, so
    [kMeansThread] does not return. *)
Theorem assignments_stale_after_phase :
  clusterAssignments <$> computeAssignments Ex.args20 16 Ex.mem20 =
    Some (replicate 16 0 ++ replicate 4 7) ∧
  kMeansThread 10 (replicate 20 1%float) [0; 5]%float (replicate 20 7)
    20 1 2 Ex.eps = Undefined.
Proof. split; vm_compute; reflexivity. Qed.

(** C6.  For a well-formed memory whose assignments lie in [[0, K)],
    [computeCentroids] overwrites the centroids: coordinate [d] of centroid
    [k] becomes the sum of that coordinate over the points assigned to [k]
    divided by [max(count, 1)], and a cluster with no point gets
    the all-zeros centroid. *)
Theorem computeCentroids_mean (args : WorkerArgs) (mem : Mem) :
  wf args mem →
  assigned_in_range args (clusterAssignments mem) →
  ∃ cen',
    computeCentroids args mem = Some (set_clusterCentroids mem cen') ∧
    length cen' = length (clusterCentroids mem) ∧
    (∀ k d, 0 ≤ k < K args → 0 ≤ d < N args →
       load cen' (k * N args + d) =
         Some (cluster_sum (N args) (data mem) (clusterAssignments mem)
                 k d (M args) /
               of_int (Z.max (Z.of_nat (length
                 (members (clusterAssignments mem) k (M args)))) 1))%float) ∧
    (∀ k d, 0 ≤ k < K args → 0 ≤ d < N args →
       members (clusterAssignments mem) k (M args) = [] →
       load cen' (k * N args + d) = Some 0%float).
Proof.
  intros Hwf Hasg.
  destruct (computeCentroids_spec args mem Hwf Hasg) as (cen' & Hrun & Hl & Hmean).
  exists cen'. split_and!; [done|done|by apply Hmean|].
  intros k d Hk Hd Hempty. rewrite Hmean by done.
  unfold cluster_mean, cluster_sum. rewrite Hempty. done.
Qed.

(** C6 on the points [{0, 1, 10, 11}] assigned [0, 0, 0, 1] among three
    clusters: cluster 2 is empty. *)
Lemma computeCentroids_mean_witness :
  ∃ cen',
    computeCentroids
      {| start := 0; end_ := 0; M := 4; N := 1; K := 3;
         threadId := 0; numThreads := 0 |}
      (mkMem Ex.pts4 [9; 9; 9]%float [0; 0; 0; 1] []) =
      Some (mkMem Ex.pts4 cen' [0; 0; 0; 1] []) ∧
    load cen' 2 = Some 0%float.
Proof.
  destruct (computeCentroids_mean
              {| start := 0; end_ := 0; M := 4; N := 1; K := 3;
                 threadId := 0; numThreads := 0 |}
              (mkMem Ex.pts4 [9; 9; 9]%float [0; 0; 0; 1] []))
    as (cen' & Hrun & _ & _ & Hzero).
  - constructor; simpl; unfold INT_MAX; lia.
  - intros m Hm. simpl in Hm.
    assert (m = 0 ∨ m = 1 ∨ m = 2 ∨ m = 3) as [-> | [-> | [-> | ->]]] by lia;
      eexists; (split; [reflexivity|simpl; lia]).
  - exists cen'. split; [exact Hrun|].
    apply (Hzero 2 0); [simpl; lia|simpl; lia|reflexivity].
Defined.

(** C7 (defect in the code).  The claim, with the documentation of
    [workerThreadStart] ("assigns each data point to its closest cluster
    centroid"): the kernel records the smallest index attaining the
    minimum distance.  One point at distance [2^100] from the only
    centroid: index [0] attains the minimum over the [K = 1] centroids, the
    distance is not below the finite sentinel [1e30], and the kernel
    records [-1]. *)
Lemma kernel_misses_far_minimum :
  clusterAssignments <$> workerThreadStart Ex.args1 (Ex.mem1 [0]) = Some [-1] ∧
  dist_to 1 [Ex.far] [0%float] 0 0 = Some Ex.far ∧
  (Ex.far <? HUGE)%float = false.
Proof. split_and!; vm_compute; reflexivity. Qed.

(** X21.  For a point [m] of the worker's range that has some
    centroid at a distance below the sentinel [1e30], the kernel records
    the smallest index attaining the minimum distance: no centroid is
    strictly closer than the recorded one (and every distance that is not a
    NaN is at least as large), and no earlier centroid is as close, so a
    later centroid at exactly the running minimum never replaces it. *)
Theorem kernel_lowest_index_wins (args : WorkerArgs) (mem : Mem) (m : Z) :
  wf args mem →
  0 ≤ start args ≤ end_ args →
  end_ args ≤ M args →
  start args ≤ m < end_ args →
  (∃ k d, 0 ≤ k < K args ∧
     dist_to (N args) (data mem) (clusterCentroids mem) m k = Some d ∧
     (d <? HUGE)%float = true) →
  ∃ mem' best dbest,
    workerThreadStart args mem = Some mem' ∧
    load (clusterAssignments mem') m = Some best ∧
    0 ≤ best < K args ∧
    dist_to (N args) (data mem) (clusterCentroids mem) m best = Some dbest ∧
    (∀ k d, 0 ≤ k < K args →
       dist_to (N args) (data mem) (clusterCentroids mem) m k = Some d →
       (d <? dbest)%float = false ∧
       ((d =? d)%float = true → (dbest <=? d)%float = true)) ∧
    (∀ k d, 0 ≤ k < best →
       dist_to (N args) (data mem) (clusterCentroids mem) m k = Some d →
       (d <=? dbest)%float = false).
Proof.
  intros Hwf Hse HeM Hm (k0 & d0 & Hk0 & Hd0 & Hlt0).
  pose proof (wf_K _ _ Hwf) as [HK _].
  destruct (workerThreadStart_spec args mem Hwf Hse HeM)
    as (asg' & Hrun & _ & Hin & _).
  destruct (Hin m Hm) as (md & best & Hn & Hb).
  apply nearest_upto_spec in Hn as [(_ & _ & Hall)|(Hbest & Hd & Hh & Hall & Hfirst)].
  { rewrite (Hall k0 d0) in Hlt0; [done|lia|done]. }
  rewrite Z2Nat.id in * by lia.
  exists (set_clusterAssignments mem asg'), best, md.
  split_and!; [done|done|lia|lia|done| |done].
  intros k d Hk Hdk. pose proof (Hall k d Hk Hdk) as Hnlt. split; [done|].
  intros Hnan. apply ltb_false_leb; [done|done|]. by eapply ltb_eqb_refl.
Qed.

(** X21 on a tie: the point [5] is at distance [5] from both
    centroids [0] and [10], and index [0] is recorded. *)
Lemma kernel_lowest_index_wins_witness :
  ∃ mem',
    workerThreadStart
      {| start := 0; end_ := 1; M := 1; N := 1; K := 2;
         threadId := 0; numThreads := 1 |}
      (mkMem [5%float] [0; 10]%float [7] []) = Some mem' ∧
    load (clusterAssignments mem') 0 = Some 0.
Proof.
  destruct (kernel_lowest_index_wins
              {| start := 0; end_ := 1; M := 1; N := 1; K := 2;
                 threadId := 0; numThreads := 1 |}
              (mkMem [5%float] [0; 10]%float [7] []) 0)
    as (mem' & best & dbest & Hrun & Hl & Hb & Hd & _ & Hfirst).
  - constructor; simpl; unfold INT_MAX; lia.
  - simpl. lia.
  - simpl. lia.
  - simpl. lia.
  - exists 0, 5%float. split; [simpl; lia|]. split; reflexivity.
  - exists mem'. split; [exact Hrun|]. simpl in Hb.
    assert (best = 0 ∨ best = 1) as [-> | ->] by lia; [exact Hl|].
    exfalso. injection Hd as <-.
    specialize (Hfirst 0 5%float ltac:(lia) eq_refl). discriminate Hfirst.
Defined.

(** Both runs of the centroid update on memories with the same points and
    assignments write the same centroids. *)
Lemma computeCentroids_deterministic args mem mem' :
  wf args mem →
  assigned_in_range args (clusterAssignments mem) →
  data mem' = data mem →
  clusterAssignments mem' = clusterAssignments mem →
  length (clusterCentroids mem') = length (clusterCentroids mem) →
  ∃ cen,
    computeCentroids args mem = Some (set_clusterCentroids mem cen) ∧
    computeCentroids args mem' = Some (set_clusterCentroids mem' cen).
Proof.
  intros Hwf Hasg Hd Ha Hl.
  assert (wf args mem') as Hwf'.
  { destruct Hwf. constructor; rewrite ?Hd, ?Ha, ?Hl; done. }
  destruct (computeCentroids_spec args mem Hwf Hasg) as (c1 & Hr1 & Hl1 & Hm1).
  destruct (computeCentroids_spec args mem' Hwf') as (c2 & Hr2 & Hl2 & Hm2);
    [by rewrite Ha|].
  exists c1. split; [done|]. rewrite Hr2. f_equal. f_equal.
  apply list_eq_load; [congruence|]. intros i Hi.
  pose proof (wf_centroids _ _ Hwf) as Hcl. pose proof (wf_N _ _ Hwf) as [HN _].
  rewrite Hl2, Hl, Hcl in Hi.
  assert (0 < N args).
  { destruct (decide (N args = 0)) as [E|]; [rewrite E in Hi|]; lia. }
  pose proof (Z.div_mod i (N args) ltac:(lia)).
  pose proof (Z.mod_pos_bound i (N args) ltac:(lia)).
  assert (0 ≤ i / N args) by (apply Z.div_pos; lia).
  assert (i / N args < K args) by (apply Z.div_lt_upper_bound; nia).
  replace i with (i / N args * N args + i `mod` N args) by lia.
  rewrite Hm1, Hm2 by lia. by rewrite Hd, Ha.
Qed.

(** C8.  For a well-formed memory whose assignments lie in [[0, K)]: run
    the centroid update, then the Assignment phase; if the assignment
    vector is what it was, the centroid update run again writes the same
    centroids. *)
Theorem computeCentroids_idempotent (args : WorkerArgs) (T : Z) (mem : Mem) :
  wf args mem →
  assigned_in_range args (clusterAssignments mem) →
  ∃ mem1,
    computeCentroids args mem = Some mem1 ∧
    ∀ mem2,
      computeAssignments args T mem1 = Some mem2 →
      clusterAssignments mem2 = clusterAssignments mem →
      ∃ mem3,
        computeCentroids args mem2 = Some mem3 ∧
        clusterCentroids mem3 = clusterCentroids mem1.
Proof.
  intros Hwf Hasg.
  destruct (computeCentroids_spec args mem Hwf Hasg) as (c1 & Hr1 & Hl1 & _).
  exists (set_clusterCentroids mem c1). split; [done|].
  intros mem2 Hrun Ha.
  assert (0 < T) as HT.
  { unfold computeAssignments in Hrun. by case_bool_decide. }
  assert (wf args (set_clusterCentroids mem c1)) as Hwf1.
  { destruct Hwf. constructor; simpl; rewrite ?Hl1; done. }
  destruct (computeAssignments_spec args T _ Hwf1 HT) as (a2 & Hrun' & _).
  rewrite Hrun' in Hrun. injection Hrun as <-. simpl in Ha. subst a2.
  destruct (computeCentroids_deterministic args mem
              (set_clusterAssignments (set_clusterCentroids mem c1)
                 (clusterAssignments mem)))
    as (c & Hc1 & Hc2); [done|done|done|done|by simpl|].
  rewrite Hr1 in Hc1. injection Hc1 as Hc. eexists. split; [exact Hc2|].
  simpl. congruence.
Qed.

(** C8 on the points [{0, 1, 10, 11}] assigned [0, 0, 1, 1] with two
    workers: the first update gives [0.5, 10.5], the phase reassigns every
    point to the cluster it had, the second update gives [0.5, 10.5]. *)
Lemma computeCentroids_idempotent_witness :
  ∃ mem3,
    computeCentroids Ex.args4
      (mkMem Ex.pts4 [0.5; 10.5]%float [0; 0; 1; 1] [0; 0]%float) = Some mem3 ∧
    clusterCentroids mem3 = [0.5; 10.5]%float.
Proof.
  destruct (computeCentroids_idempotent Ex.args4 2
              (mkMem Ex.pts4 [3; 4]%float [0; 0; 1; 1] [0; 0]%float))
    as (mem1 & Hrun1 & Hagain).
  - constructor; simpl; unfold INT_MAX; lia.
  - intros m Hm. simpl in Hm.
    assert (m = 0 ∨ m = 1 ∨ m = 2 ∨ m = 3) as [-> | [-> | [-> | ->]]] by lia;
      eexists; (split; [reflexivity|simpl; lia]).
  - injection Hrun1 as <-.
    destruct (Hagain (mkMem Ex.pts4 [0.5; 10.5]%float [0; 0; 1; 1] [0; 0]%float))
      as (mem3 & Hrun3 & Hcen); [reflexivity|reflexivity|].
    exists mem3. split; [exact Hrun3|exact Hcen].
Defined.

(** C9.  When every distance computed for the points of a non-empty
    worker range is at least the sentinel [1e30], [workerThreadStart]
    leaves [-1] in every entry of the range, and the [computeCentroids]
    that follows indexes [counts] with it: undefined behaviour. *)
Theorem sentinel_leaves_unassigned (args : WorkerArgs) (mem : Mem) :
  wf args mem →
  0 ≤ start args < end_ args →
  end_ args ≤ M args →
  1 ≤ K args →
  (∀ m k d, start args ≤ m < end_ args → 0 ≤ k < K args →
     dist_to (N args) (data mem) (clusterCentroids mem) m k = Some d →
     (HUGE <=? d)%float = true) →
  ∃ mem',
    workerThreadStart args mem = Some mem' ∧
    (∀ m, start args ≤ m < end_ args →
       load (clusterAssignments mem') m = Some (-1)) ∧
    computeCentroids args mem' = None.
Proof.
  intros Hwf Hse HeM HK Hfar.
  destruct (workerThreadStart_spec args mem Hwf) as (asg' & Hrun & _ & Hin & _);
    [lia|lia|].
  assert (∀ m, start args ≤ m < end_ args → load asg' m = Some (-1)) as Hminus.
  { intros m Hm. destruct (Hin m Hm) as (md & best & Hn & ->). f_equal.
    apply nearest_upto_spec in Hn as [(-> & _)|(Hb & Hd & Hlt & _)]; [done|].
    rewrite Z2Nat.id in Hb by lia.
    rewrite (leb_ltb_false _ _ (Hfar m best md Hm Hb Hd)) in Hlt. done. }
  exists (set_clusterAssignments mem asg'). split_and!; [done|done|].
  destruct (computeCentroids args _) as [mem''|] eqn:E; [|done].
  apply computeCentroids_Some in E as (Hrange & _). simpl in Hrange.
  destruct (Hrange (start args)) as (k & Hk & Hk0); [lia|].
  rewrite Hminus in Hk by lia. injection Hk as <-. lia.
Qed.

(** C9 on one point at distance [2^100] from the only centroid. *)
Lemma sentinel_leaves_unassigned_witness :
  ∃ mem',
    workerThreadStart Ex.args1 (Ex.mem1 [0]) = Some mem' ∧
    load (clusterAssignments mem') 0 = Some (-1) ∧
    computeCentroids Ex.args1 mem' = None.
Proof.
  destruct (sentinel_leaves_unassigned Ex.args1 (Ex.mem1 [0]))
    as (mem' & Hrun & Hminus & Hub).
  - apply wf_mem1. reflexivity.
  - simpl. lia.
  - simpl. lia.
  - simpl. lia.
  - simpl. intros m k d Hm Hk.
    assert (m = 0) as -> by lia. assert (k = 0) as -> by lia.
    intros [= <-]. reflexivity.
  - exists mem'. split; [exact Hrun|]. split; [|exact Hub].
    apply Hminus. simpl. lia.
Defined.

(** C10.  Run on two memories that hold the same points and centroids and
    assignment vectors of one length, [workerThreadStart] returns on both
    and the entries of its range are the same, whatever the two vectors
    held before. *)
Theorem kernel_ignores_prior_assignments (args : WorkerArgs) (mem1 mem2 : Mem) :
  wf args mem1 →
  0 ≤ start args ≤ end_ args →
  end_ args ≤ M args →
  data mem2 = data mem1 →
  clusterCentroids mem2 = clusterCentroids mem1 →
  length (clusterAssignments mem2) = length (clusterAssignments mem1) →
  ∃ mem1' mem2',
    workerThreadStart args mem1 = Some mem1' ∧
    workerThreadStart args mem2 = Some mem2' ∧
    ∀ m, start args ≤ m < end_ args →
      ∃ best, load (clusterAssignments mem1') m = Some best ∧
              load (clusterAssignments mem2') m = Some best.
Proof.
  intros Hwf Hse HeM Hd Hc Hl.
  assert (wf args mem2) as Hwf2.
  { destruct Hwf. constructor; rewrite ?Hd, ?Hc, ?Hl; done. }
  destruct (workerThreadStart_spec args mem1 Hwf Hse HeM)
    as (a1 & Hr1 & _ & Hin1 & _).
  destruct (workerThreadStart_spec args mem2 Hwf2 Hse HeM)
    as (a2 & Hr2 & _ & Hin2 & _).
  eexists _, _. split_and!; [done|done|]. simpl. intros m Hm.
  destruct (Hin1 m Hm) as (md1 & b1 & Hn1 & Hb1).
  destruct (Hin2 m Hm) as (md2 & b2 & Hn2 & Hb2).
  rewrite Hd, Hc in Hn2. exists b1. split; [done|]. congruence.
Qed.

(** C10 on the points [{0, 1, 10, 11}] with the prior assignments
    [7, 7, 7, 7] and [1, 1, 0, 0]. *)
Lemma kernel_ignores_prior_assignments_witness :
  ∃ mem1' mem2',
    workerThreadStart Ex.args4 (Ex.mem4 [7; 7; 7; 7]) = Some mem1' ∧
    workerThreadStart Ex.args4 (Ex.mem4 [1; 1; 0; 0]) = Some mem2' ∧
    ∃ best, load (clusterAssignments mem1') 2 = Some best ∧
            load (clusterAssignments mem2') 2 = Some best.
Proof.
  destruct (kernel_ignores_prior_assignments Ex.args4
              (Ex.mem4 [7; 7; 7; 7]) (Ex.mem4 [1; 1; 0; 0]))
    as (mem1' & mem2' & Hr1 & Hr2 & Hsame).
  - apply wf_mem4. reflexivity.
  - simpl. lia.
  - simpl. lia.
  - reflexivity.
  - reflexivity.
  - reflexivity.
  - exists mem1', mem2'. split; [exact Hr1|]. split; [exact Hr2|].
    apply Hsame. simpl. lia.
Defined.

(** * Further properties *)

(** X1.  When the worker count divides [M], every point index lies in the
    range of exactly one worker. *)
Theorem partition_exact_when_divides (args : WorkerArgs) (T m : Z) :
  0 ≤ M args →
  0 < T →
  M args `rem` T = 0 →
  0 ≤ m < M args →
  ∃ i w,
    0 ≤ i < T ∧
    args_arr args T !! Z.to_nat i = Some w ∧ in_range m w ∧
    ∀ j w', 0 ≤ j → args_arr args T !! Z.to_nat j = Some w' →
            in_range m w' → j = i.
Proof.
  intros HM HT Hrem Hm.
  pose proof (quot_bounds args T HM HT) as Hq.
  assert (M args `quot` T * T = M args) as HqT.
  { pose proof (Z.quot_rem' (M args) T). lia. }
  set (q := M args `quot` T) in *.
  assert (0 < q) by nia.
  pose proof (Z.div_mod m q ltac:(lia)).
  pose proof (Z.mod_pos_bound m q ltac:(lia)).
  assert (0 ≤ m / q) by (apply Z.div_pos; lia).
  assert (m / q < T) by (apply Z.div_lt_upper_bound; nia).
  eexists (m / q), _. split_and!; [lia|lia|by apply args_arr_lookup| |].
  - unfold in_range. simpl. fold q. nia.
  - intros j w' Hj Hw' Hin. symmetry.
    eapply (args_arr_disjoint args T HM HT (m / q) j _ w' m);
      [by apply args_arr_lookup|lia|done|done| |done].
    unfold in_range. simpl. fold q. nia.
Qed.

(** Eight points and four workers: index 5 is in the range of worker 2 and
    of no other. *)
Lemma partition_exact_when_divides_witness :
  ∃ i w,
    0 ≤ i < 4 ∧
    args_arr {| start := 0; end_ := 0; M := 8; N := 1; K := 2;
                threadId := 0; numThreads := 0 |} 4 !! Z.to_nat i = Some w ∧
    in_range 5 w.
Proof.
  destruct (partition_exact_when_divides
              {| start := 0; end_ := 0; M := 8; N := 1; K := 2;
                 threadId := 0; numThreads := 0 |} 4 5)
    as (i & w & Hi & Hw & Hin & _).
  - simpl. lia.
  - lia.
  - reflexivity.
  - simpl. lia.
  - exists i, w. split; [exact Hi|]. split; [exact Hw|exact Hin].
Defined.

(** X2.  When the worker count divides [M], the Assignment phase with [T]
    workers returns what the phase with one worker returns. *)
Theorem worker_count_irrelevant_when_divides (args : WorkerArgs) (T : Z)
    (mem : Mem) :
  wf args mem →
  0 < T →
  M args `rem` T = 0 →
  computeAssignments args T mem = computeAssignments args 1 mem.
Proof. apply computeAssignments_divides. Qed.

(** The points [{0, 1, 10, 11}]: two workers and one worker. *)
Lemma worker_count_irrelevant_when_divides_witness :
  computeAssignments Ex.args4 2 (Ex.mem4 [7; 7; 7; 7]) =
  computeAssignments Ex.args4 1 (Ex.mem4 [7; 7; 7; 7]).
Proof.
  apply (worker_count_irrelevant_when_divides Ex.args4 2 (Ex.mem4 [7; 7; 7; 7])).
  - apply wf_mem4. reflexivity.
  - lia.
  - reflexivity.
Defined.

(** X3.  The Assignment phase does not depend on the order in which the
    workers run: any arrangement of the worker records, run one after the other,
    returns what [computeAssignments] returns. *)
Theorem assignment_phase_order_independent (args : WorkerArgs) (T : Z)
    (mem : Mem) (ws : list WorkerArgs) :
  wf args mem →
  0 < T →
  args_arr args T ≡ₚ ws →
  run_workers ws mem = computeAssignments args T mem.
Proof.
  intros Hwf HT Hp. pose proof (wf_M _ _ Hwf) as [HM _].
  unfold computeAssignments. rewrite bool_decide_true by done. simpl.
  symmetry. apply (run_workers_Permutation args).
  - done.
  - rewrite spawn_order_Permutation. by apply args_arr_worker_of.
  - by rewrite spawn_order_Permutation.
Qed.

(** The two workers of the four-point example, run in reverse order. *)
Lemma assignment_phase_order_independent_witness :
  run_workers (reverse (args_arr Ex.args4 2)) (Ex.mem4 [7; 7; 7; 7]) =
  computeAssignments Ex.args4 2 (Ex.mem4 [7; 7; 7; 7]).
Proof.
  apply (assignment_phase_order_independent Ex.args4 2 (Ex.mem4 [7; 7; 7; 7])).
  - apply wf_mem4. reflexivity.
  - lia.
  - symmetry. apply reverse_Permutation.
Defined.

(** X4.  The convergence test returns [true] exactly when no cluster [k]
    of [[0, K)] has [abs(prevCost[k] - currCost[k]) > epsilon]. *)
Theorem convergence_test (prevCost currCost : list float) (epsilon : float)
    (K : Z) :
  stoppingConditionMet prevCost currCost epsilon K = Some true ↔
  ∀ k, 0 ≤ k < K →
    ∃ p c, load prevCost k = Some p ∧ load currCost k = Some c ∧
           (epsilon <? abs (p - c))%float = false.
Proof. apply stoppingConditionMet_true. Qed.

(** X5.  The loop that opens an iteration of [kMeansThread] makes
    [prevCost] a copy of [currCost]. *)
Theorem prevCost_copy (K : Z) (prevCost currCost : list float) :
  Z.of_nat (length prevCost) = K →
  Z.of_nat (length currCost) = K →
  For 0 K (λ k prevCost, c ← load currCost k; store prevCost k c) prevCost =
    Some currCost.
Proof.
  intros Hp Hc.
  for_inv (λ i (p : list float),
    length p = length prevCost ∧
    ∀ j, 0 ≤ j < i → load p j = load currCost j).
  { lia. }
  { split; [done|]. intros; lia. }
  { intros i p Hi [Hl Hprev].
    destruct (load_is_Some currCost i) as [c Hci]; [lia|]. rewrite Hci. simpl.
    rewrite store_is_Some by lia. eexists. split; [done|].
    split; [by rewrite length_insert|]. intros j Hj.
    destruct (decide (j = i)) as [->|].
    - rewrite Hci. eapply load_store_eq. apply store_is_Some. lia.
    - erewrite load_store_ne; [|apply store_is_Some; lia|done]. apply Hprev. lia. }
  destruct Hinv as [Hl Hall]. f_equal.
  apply list_eq_load; [lia|]. intros i Hi. apply Hall. lia.
Qed.

(** Two clusters: the sentinel costs are replaced by the current ones. *)
Lemma prevCost_copy_witness :
  For 0 2 (λ k prevCost, c ← load [3; 4]%float k; store prevCost k c)
    [HUGE; HUGE] = Some [3; 4]%float.
Proof. apply (prevCost_copy 2 [HUGE; HUGE] [3; 4]%float); reflexivity. Defined.

(** * More of the assignment phase *)

(** X6.  An Assignment phase with [T] workers changes nothing but the
    assignment vector, keeps its length, and leaves every entry at or
    above [T * (M / T)] as it was. *)
Theorem assignment_phase_frame (args : WorkerArgs) (T : Z) (mem : Mem) :
  wf args mem →
  0 < T →
  ∃ mem',
    computeAssignments args T mem = Some mem' ∧
    data mem' = data mem ∧
    clusterCentroids mem' = clusterCentroids mem ∧
    currCost mem' = currCost mem ∧
    length (clusterAssignments mem') = length (clusterAssignments mem) ∧
    ∀ m, M args `quot` T * T ≤ m →
      load (clusterAssignments mem') m = load (clusterAssignments mem) m.
Proof.
  intros Hwf HT.
  destruct (computeAssignments_spec args T mem Hwf HT)
    as (asg' & Hrun & Hl & _ & Hout).
  eexists. split; [done|]. simpl. split_and!; [done|done|done|done|].
  intros m Hm. apply Hout. lia.
Qed.

(** X6 on twenty points and sixteen workers: entry 17 keeps its [7]. *)
Lemma assignment_phase_frame_witness :
  ∃ mem',
    computeAssignments Ex.args20 16 Ex.mem20 = Some mem' ∧
    data mem' = data Ex.mem20 ∧
    load (clusterAssignments mem') 17 = Some 7.
Proof.
  destruct (assignment_phase_frame Ex.args20 16 Ex.mem20)
    as (mem' & Hrun & Hd & _ & _ & _ & Hout).
  - constructor; simpl; unfold INT_MAX; lia.
  - lia.
  - exists mem'. split; [exact Hrun|]. split; [exact Hd|].
    rewrite (Hout 17); [reflexivity|]. vm_compute. discriminate.
Defined.

(** A worker whose range is empty returns the memory as it is, whatever
    the arrays are. *)
Lemma workerThreadStart_empty w mem :
  start w = end_ w → workerThreadStart w mem = Some mem.
Proof.
  intros He. unfold workerThreadStart. rewrite He, Z.sub_diag.
  destruct mem. reflexivity.
Qed.

Lemma run_workers_empty ws mem :
  Forall (λ w, start w = end_ w) ws → run_workers ws mem = Some mem.
Proof.
  induction 1 as [|w ws Hw _ IH]; [done|].
  simpl. rewrite workerThreadStart_empty by done. done.
Qed.

(** X7.  With more workers than points ([0 ≤ M < T]) every worker range
    is empty: the Assignment phase returns the memory unchanged, whatever
    the arrays hold and however long they are. *)
Theorem more_workers_than_points (args : WorkerArgs) (T : Z) (mem : Mem) :
  0 ≤ M args < T →
  computeAssignments args T mem = Some mem.
Proof.
  intros HM. unfold computeAssignments. rewrite bool_decide_true by lia.
  simpl. apply run_workers_empty.
  assert (Forall (λ w, start w = end_ w) (args_arr args T)) as Hall.
  { apply Forall_forall. intros w Hw.
    apply elem_of_args_arr in Hw as (i & Hi & ->).
    simpl. rewrite Z.quot_small by lia. lia. }
  apply Forall_app. split.
  - by apply Forall_drop.
  - by apply Forall_take.
Qed.

(** X7 on three points and four workers, with arrays of the wrong sizes. *)
Lemma more_workers_than_points_witness :
  computeAssignments
    {| start := 0; end_ := 0; M := 3; N := 5; K := 2;
       threadId := 0; numThreads := 0 |} 4 (mkMem [] [] [9] []) =
  Some (mkMem [] [] [9] []).
Proof.
  apply (more_workers_than_points
           {| start := 0; end_ := 0; M := 3; N := 5; K := 2;
              threadId := 0; numThreads := 0 |} 4 (mkMem [] [] [9] [])).
  simpl. lia.
Defined.

(** X8.  After the kernel every entry of its range is [-1] or a cluster
    index of [[0, K)], and it is [-1] exactly when no centroid is at a
    distance strictly below the sentinel [1e30]. *)
Theorem kernel_entry (args : WorkerArgs) (mem : Mem) (m : Z) :
  wf args mem →
  0 ≤ start args ≤ end_ args →
  end_ args ≤ M args →
  start args ≤ m < end_ args →
  ∃ mem' best,
    workerThreadStart args mem = Some mem' ∧
    load (clusterAssignments mem') m = Some best ∧
    -1 ≤ best < K args ∧
    (best = -1 ↔
     ∀ k d, 0 ≤ k < K args →
       dist_to (N args) (data mem) (clusterCentroids mem) m k = Some d →
       (d <? HUGE)%float = false).
Proof.
  intros Hwf Hse HeM Hm. pose proof (wf_K _ _ Hwf) as [HK _].
  destruct (workerThreadStart_spec args mem Hwf Hse HeM)
    as (asg' & Hrun & _ & Hin & _).
  destruct (Hin m Hm) as (md & best & Hn & Hb).
  exists (set_clusterAssignments mem asg'), best. split; [done|]. split; [done|].
  apply nearest_upto_spec in Hn
    as [(-> & _ & Hall)|(Hbest & Hd & Hlt & _)]; rewrite Z2Nat.id in * by lia.
  - split; [lia|]. split; [|done]. intros _ k d Hk Hdk. by eapply Hall.
  - split; [lia|]. split; [lia|]. intros Hall.
    rewrite (Hall best md) in Hlt; [done|lia|done].
Qed.

(** X8 on the point [5] between the centroids [0] and [10]. *)
Lemma kernel_entry_witness :
  ∃ mem' best,
    workerThreadStart
      {| start := 0; end_ := 1; M := 1; N := 1; K := 2;
         threadId := 0; numThreads := 1 |}
      (mkMem [5%float] [0; 10]%float [7] []) = Some mem' ∧
    load (clusterAssignments mem') 0 = Some best ∧
    -1 ≤ best < 2.
Proof.
  destruct (kernel_entry
              {| start := 0; end_ := 1; M := 1; N := 1; K := 2;
                 threadId := 0; numThreads := 1 |}
              (mkMem [5%float] [0; 10]%float [7] []) 0)
    as (mem' & best & Hrun & Hl & Hb & _).
  - constructor; simpl; unfold INT_MAX; lia.
  - simpl. lia.
  - simpl. lia.
  - simpl. lia.
  - exists mem', best. split; [exact Hrun|]. split; [exact Hl|exact Hb].
Defined.

(** * More of the centroid update *)

(** X9.  On well-formed arrays [computeCentroids] is defined exactly when
    every one of the first [M] assignments is a cluster index of
    [[0, K)]: any other entry is used as an index outside [counts]. *)
Theorem computeCentroids_defined_iff (args : WorkerArgs) (mem : Mem) :
  wf args mem →
  is_Some (computeCentroids args mem) ↔
  assigned_in_range args (clusterAssignments mem).
Proof.
  intros Hwf. split.
  - intros [mem' Hrun]. by apply computeCentroids_Some in Hrun as [? _].
  - intros Hasg.
    destruct (computeCentroids_spec args mem Hwf Hasg) as (cen' & -> & _).
    by eexists.
Qed.

(** X9 on the four points assigned [0, 0, 1, 1]. *)
Lemma computeCentroids_defined_iff_witness :
  is_Some (computeCentroids Ex.args4 (Ex.mem4 [0; 0; 1; 1])).
Proof.
  apply (computeCentroids_defined_iff Ex.args4 (Ex.mem4 [0; 0; 1; 1])).
  - apply wf_mem4. reflexivity.
  - intros m Hm. simpl in Hm.
    assert (m = 0 ∨ m = 1 ∨ m = 2 ∨ m = 3) as [-> | [-> | [-> | ->]]] by lia;
      eexists; (split; [reflexivity|simpl; lia]).
Defined.

(** * The cost evaluation *)

Lemma cluster_cost_succ_in nDim dat cen asg k m d :
  0 ≤ m → load asg m = Some k → dist_to nDim dat cen m k = Some d →
  cluster_cost nDim dat cen asg k (m + 1) =
    (cluster_cost nDim dat cen asg k m + d)%float.
Proof.
  intros ? Hk Hd. unfold cluster_cost. rewrite members_succ_in by done.
  rewrite foldl_app. simpl. by rewrite Hd.
Qed.

Lemma computeCost_spec args mem :
  wf args mem →
  Z.of_nat (length (currCost mem)) = K args →
  assigned_in_range args (clusterAssignments mem) →
  ∃ cost',
    computeCost args mem = Some (set_currCost mem cost') ∧
    length cost' = length (currCost mem) ∧
    ∀ k, 0 ≤ k < K args →
      load cost' k =
        Some (cluster_cost (N args) (data mem) (clusterCentroids mem)
                (clusterAssignments mem) k (M args)).
Proof.
  intros Hwf Hcl Hasg. pose proof Hwf as [].
  unfold computeCost, new_array. rewrite bool_decide_true by lia. simpl.
  set (asg := clusterAssignments mem) in *. set (dat := data mem) in *.
  set (cen := clusterCentroids mem) in *.
  (* Zero things out *)
  for_inv (λ k (acc : list float),
    Z.of_nat (length acc) = K args ∧
    ∀ k', 0 ≤ k' < k → load acc k' = Some 0%float).
  { lia. }
  { rewrite length_replicate. split; [lia|]. intros; lia. }
  { intros k acc Hk [Hl Hz]. rewrite store_is_Some by lia.
    eexists. split; [done|]. split; [by rewrite length_insert|].
    intros k' Hk'. destruct (decide (k' = k)) as [->|].
    - eapply load_store_eq. apply store_is_Some. lia.
    - erewrite load_store_ne; [|apply store_is_Some; lia|done]. apply Hz. lia. }
  destruct Hinv as [Hl0 Hz0]. rename st into acc0.
  (* Sum cost for all data points assigned to centroid *)
  for_inv (λ m (acc : list float),
    Z.of_nat (length acc) = K args ∧
    ∀ k, 0 ≤ k < K args →
      load acc k = Some (cluster_cost (N args) dat cen asg k m)).
  { lia. }
  { split; [done|]. intros k Hk. by apply Hz0. }
  { intros m acc Hm [Hl Hsum].
    destruct (Hasg m Hm) as (k & Hak & Hk). rewrite Hak. simpl.
    rewrite Hsum by done. simpl.
    destruct (dist_to_is_Some args mem m k Hwf Hm Hk) as [d Hd].
    fold dat cen in Hd. unfold dist_to in Hd. rewrite Hd. simpl.
    rewrite store_is_Some by lia. eexists. split; [done|].
    split; [by rewrite length_insert|]. intros k' Hk'.
    destruct (decide (k' = k)) as [->|].
    - erewrite load_store_eq; [|apply store_is_Some; lia].
      f_equal. symmetry. by apply cluster_cost_succ_in; [lia|done|].
    - erewrite load_store_ne; [|apply store_is_Some; lia|done].
      unfold cluster_cost. rewrite (members_succ_out asg k' k) by (done || lia).
      by apply Hsum. }
  destruct Hinv as [Hl1 Hsum]. rename st into acc1.
  (* Update costs *)
  for_inv (λ k (cost : list float),
    length cost = length (currCost mem) ∧
    ∀ k', 0 ≤ k' < k →
      load cost k' = Some (cluster_cost (N args) dat cen asg k' (M args))).
  { lia. }
  { split; [done|]. intros; lia. }
  { intros k cost Hk [Hl Hc]. rewrite Hsum by done. simpl.
    rewrite store_is_Some by lia. eexists. split; [done|].
    split; [by rewrite length_insert|]. intros k' Hk'.
    destruct (decide (k' = k)) as [->|].
    - eapply load_store_eq. apply store_is_Some. lia.
    - erewrite load_store_ne; [|apply store_is_Some; lia|done]. apply Hc. lia. }
  destruct Hinv as [Hl2 Hc]. exists st. split_and!; [done|done|done].
Qed.

(** If the cost evaluation returns, it has indexed [accum] with every one
    of the first [M] assignments. *)
Lemma computeCost_Some_range args mem mem' :
  computeCost args mem = Some mem' →
  assigned_in_range args (clusterAssignments mem).
Proof.
  unfold computeCost. intros H.
  apply bind_Some in H as (acc & Hnew & H).
  apply bind_Some in H as (acc0 & Hzero & H).
  apply bind_Some in H as (acc1 & Hsum & _).
  unfold new_array in Hnew. case_bool_decide as HK; [|done]. injection Hnew as <-.
  assert (Z.of_nat (length acc0) = K args) as Hl0.
  { refine (For_inv_Some (λ _ (a : list float), Z.of_nat (length a) = K args)
              _ _ _ _ _ _ _ _ Hzero); [done| |].
    - rewrite length_replicate. lia.
    - intros k a a' _ Hl Hst. apply store_length in Hst. lia. }
  intros m Hm.
  refine (proj2 (For_inv_Some (λ i (a : list float),
            Z.of_nat (length a) = K args ∧
            ∀ j, 0 ≤ j < i →
              ∃ k, load (clusterAssignments mem) j = Some k ∧ 0 ≤ k < K args)
            _ _ _ _ _ _ _ _ Hsum) m Hm); [lia| |].
  - split; [done|]. intros; lia.
  - intros i a a' Hi [Hl Hprev] Hb.
    apply bind_Some in Hb as (k & Hk & Hb).
    apply bind_Some in Hb as (ak & Hak & Hb).
    apply bind_Some in Hb as (d & _ & Hst).
    split; [apply store_length in Hst; lia|].
    intros j Hj. destruct (decide (j = i)) as [->|]; [|apply Hprev; lia].
    exists k. split; [done|]. apply load_Some_lt in Hak. lia.
Qed.

(** X10.  On well-formed arrays whose assignments are cluster indices,
    [computeCost] overwrites [currCost]: entry [k] becomes the sum, in
    index order from [0.0], of the distances of the points assigned to [k]
    to centroid [k]; a cluster with no point costs [0.0]; the points, the
    centroids and the assignments are not touched. *)
Theorem computeCost_sums_distances (args : WorkerArgs) (mem : Mem) :
  wf args mem →
  Z.of_nat (length (currCost mem)) = K args →
  assigned_in_range args (clusterAssignments mem) →
  ∃ cost',
    computeCost args mem =
      Some (mkMem (data mem) (clusterCentroids mem) (clusterAssignments mem)
              cost') ∧
    length cost' = length (currCost mem) ∧
    (∀ k, 0 ≤ k < K args →
       load cost' k =
         Some (foldl
                 (λ acc j,
                    acc + default 0 (dist_to (N args) (data mem)
                                       (clusterCentroids mem) j k))%float
                 0%float
                 (members (clusterAssignments mem) k (M args)))) ∧
    (∀ k, 0 ≤ k < K args →
       members (clusterAssignments mem) k (M args) = [] →
       load cost' k = Some 0%float).
Proof.
  intros Hwf Hl Hasg.
  destruct (computeCost_spec args mem Hwf Hl Hasg) as (cost' & Hrun & Hl' & Hc).
  exists cost'. split_and!; [done|done|by apply Hc|].
  intros k Hk Hempty. rewrite Hc by done. unfold cluster_cost.
  by rewrite Hempty.
Qed.

(** X10 on the points [{0, 1, 10, 11}] with the centroids [{0.5, 10.5}]:
    each cluster costs [0.5 + 0.5]. *)
Lemma computeCost_sums_distances_witness :
  ∃ cost',
    computeCost Ex.args4 (Ex.mem4 [0; 0; 1; 1]) =
      Some (mkMem Ex.pts4 Ex.seeds2 [0; 0; 1; 1] cost') ∧
    load cost' 1 = Some 1%float.
Proof.
  destruct (computeCost_sums_distances Ex.args4 (Ex.mem4 [0; 0; 1; 1]))
    as (cost' & Hrun & _ & Hsum & _).
  - apply wf_mem4. reflexivity.
  - reflexivity.
  - intros m Hm. simpl in Hm.
    assert (m = 0 ∨ m = 1 ∨ m = 2 ∨ m = 3) as [-> | [-> | [-> | ->]]] by lia;
      eexists; (split; [reflexivity|simpl; lia]).
  - exists cost'. split; [exact Hrun|].
    rewrite (Hsum 1); [reflexivity|simpl; lia].
Defined.

(** X11.  On well-formed arrays with a [K]-element cost vector,
    [computeCost] is defined exactly when every one of the first [M]
    assignments is a cluster index of [[0, K)]. *)
Theorem computeCost_defined_iff (args : WorkerArgs) (mem : Mem) :
  wf args mem →
  Z.of_nat (length (currCost mem)) = K args →
  is_Some (computeCost args mem) ↔
  assigned_in_range args (clusterAssignments mem).
Proof.
  intros Hwf Hl. split.
  - intros [mem' Hrun]. by eapply computeCost_Some_range.
  - intros Hasg.
    destruct (computeCost_spec args mem Hwf Hl Hasg) as (cost' & -> & _).
    by eexists.
Qed.

(** X11 on the four points assigned [0, 0, 1, 1]. *)
Lemma computeCost_defined_iff_witness :
  is_Some (computeCost Ex.args4 (Ex.mem4 [0; 0; 1; 1])).
Proof.
  apply (computeCost_defined_iff Ex.args4 (Ex.mem4 [0; 0; 1; 1])).
  - apply wf_mem4. reflexivity.
  - reflexivity.
  - intros m Hm. simpl in Hm.
    assert (m = 0 ∨ m = 1 ∨ m = 2 ∨ m = 3) as [-> | [-> | [-> | ->]]] by lia;
      eexists; (split; [reflexivity|simpl; lia]).
Defined.

(** * More of the driver *)

(** The cost arrays the initialisation loop of [kMeansThread] builds. *)
Lemma init_costs K :
  0 ≤ K →
  ∃ prev curr,
    For 0 K (λ k '(prevCost, currCost),
        prevCost ← store prevCost k HUGE;
        currCost ← store currCost k 0%float;
        mret (prevCost, currCost))
      (replicate (Z.to_nat K) 0%float, replicate (Z.to_nat K) 0%float) =
      Some (prev, curr) ∧
    Z.of_nat (length curr) = K ∧
    ∀ k, 0 ≤ k < K → load prev k = Some HUGE ∧ load curr k = Some 0%float.
Proof.
  intros HK.
  for_inv (λ (i : Z) (st : list float * list float),
    Z.of_nat (length st.1) = K ∧ Z.of_nat (length st.2) = K).
  { done. }
  { simpl. rewrite !length_replicate. lia. }
  { intros i [p c] Hi [Hp Hc]. simpl in *.
    rewrite store_is_Some by lia. simpl. rewrite store_is_Some by lia. simpl.
    eexists. split; [done|]. simpl. rewrite !length_insert. done. }
  { destruct st as [prev curr]. destruct Hinv as [_ Hc]. simpl in *.
    exists prev, curr. split_and!; [done|done|].
    by eapply init_costs_Some. }
Qed.

(** X12.  When [epsilon] is not strictly below the sentinel [1e30] (it is
    at least [1e30], or a NaN), the first convergence test holds:
    [kMeansThread] runs no iteration and returns the centroids and the
    assignments it was given, unclustered. *)
Theorem kMeansThread_large_epsilon (T : Z) (fuel : nat) (dat cen : list float)
    (asg : list Z) (M N K : Z) (epsilon : float) :
  0 ≤ K →
  (epsilon <? HUGE)%float = false →
  kMeansThreadWith T fuel dat cen asg M N K epsilon = Done (cen, asg).
Proof.
  intros HK Heps. unfold kMeansThreadWith, new_array.
  rewrite bool_decide_true by done. simpl.
  destruct (init_costs K HK) as (prev & curr & -> & Hl & Hinit). simpl.
  assert (stoppingConditionMet prev curr epsilon K = Some true) as Hstop.
  { apply stoppingConditionMet_true. intros k Hk.
    destruct (Hinit k Hk) as [Hp Hc]. by exists HUGE, 0%float. }
  destruct fuel; simpl; rewrite Hstop; reflexivity.
Qed.

(** X12 with a NaN for [epsilon]. *)
Lemma kMeansThread_large_epsilon_witness :
  kMeansThread 0 Ex.pts4 Ex.seeds2 [7; 7; 7; 7] 4 1 2 nan =
  Done (Ex.seeds2, [7; 7; 7; 7]).
Proof.
  apply (kMeansThread_large_epsilon 16 0 Ex.pts4 Ex.seeds2 [7; 7; 7; 7] 4 1 2 nan).
  - lia.
  - reflexivity.
Defined.

Lemma wf_same_shape args mem mem' :
  wf args mem →
  length (data mem') = length (data mem) →
  length (clusterCentroids mem') = length (clusterCentroids mem) →
  length (clusterAssignments mem') = length (clusterAssignments mem) →
  wf args mem'.
Proof. intros [] Hd Hc Ha. constructor; rewrite ?Hd, ?Hc, ?Ha; done. Qed.

Lemma kMeansLoop_Done_means fuel args T epsilon prevCost mem mem' :
  wf args mem →
  kMeansLoop fuel args T epsilon prevCost mem = Done mem' →
  (stoppingConditionMet prevCost (currCost mem) epsilon (K args) = Some true ∧
   mem' = mem)
  ∨ (data mem' = data mem ∧
     length (clusterCentroids mem') = length (clusterCentroids mem) ∧
     length (clusterAssignments mem') = length (clusterAssignments mem) ∧
     centroids_are_means args mem').
Proof.
  revert prevCost mem. induction fuel as [|fuel IH]; intros prevCost mem Hwf H.
  - simpl in H. apply Res_bind_Done in H as (stop & Hstop & H).
    apply run_Done in Hstop. destruct stop; [|done]. injection H as <-. by left.
  - simpl in H. apply Res_bind_Done in H as (stop & Hstop & H).
    apply run_Done in Hstop. destruct stop; [injection H as <-; by left|].
    apply Res_bind_Done in H as (prev' & _ & H).
    apply Res_bind_Done in H as (mem1 & Hasg & H).
    apply Res_bind_Done in H as (mem2 & Hcen & H).
    apply Res_bind_Done in H as (mem3 & Hcost & H).
    apply run_Done in Hasg, Hcen, Hcost.
    assert (0 < T) as HT.
    { unfold computeAssignments in Hasg. by case_bool_decide. }
    destruct (computeAssignments_spec args T mem Hwf HT) as (a1 & Hasg' & Hl1 & _).
    rewrite Hasg' in Hasg. injection Hasg as <-.
    assert (wf args (set_clusterAssignments mem a1)) as Hwf1
      by (by apply wf_set_clusterAssignments).
    pose proof (computeCentroids_Some _ _ _ Hcen) as (Hrange & _).
    destruct (computeCentroids_spec _ _ Hwf1 Hrange) as (c2 & Hcen' & Hl2 & Hmean).
    rewrite Hcen' in Hcen. injection Hcen as <-.
    apply computeCost_Some in Hcost as (Ha3 & Hc3 & Hd3). simpl in *.
    assert (wf args mem3) as Hwf3.
    { eapply wf_same_shape; [exact Hwf|by rewrite Hd3|by rewrite Hc3|by rewrite Ha3]. }
    assert (centroids_are_means args mem3) as Hmeans3.
    { intros k d Hk Hd. rewrite Hc3, Hd3, Ha3. by apply Hmean. }
    right. apply (IH _ _ Hwf3) in H as [[_ ->]|(Hd & Hc & Ha & Hm)].
    + split_and!; [done|congruence|congruence|done].
    + split_and!; [congruence|congruence|congruence|done].
Qed.

(** X13.  On well-formed arrays with [K > 0] and [epsilon < 1e30], when
    [kMeansThread] returns, the centroid and assignment arrays have the
    lengths they came with and every centroid is the mean (sum in index
    order over [max(count, 1)]) of the points the returned assignments give
    it. *)
Theorem kMeansThread_returns_means (T : Z) (fuel : nat) (dat cen : list float)
    (asg : list Z) (M N K : Z) (epsilon : float) (cen' : list float)
    (asg' : list Z) :
  wf {| start := 0; end_ := 0; M := M; N := N; K := K;
        threadId := 0; numThreads := 0 |} (mkMem dat cen asg []) →
  0 < K →
  (epsilon <? HUGE)%float = true →
  kMeansThreadWith T fuel dat cen asg M N K epsilon = Done (cen', asg') →
  length cen' = length cen ∧
  length asg' = length asg ∧
  ∀ k d, 0 ≤ k < K → 0 ≤ d < N →
    load cen' (k * N + d) =
      Some (cluster_sum N dat asg' k d M /
            of_int (Z.max (Z.of_nat (length (members asg' k M))) 1))%float.
Proof.
  intros Hwf HK Heps H. unfold kMeansThreadWith in H.
  apply Res_bind_Done in H as (prev0 & _ & H).
  apply Res_bind_Done in H as (curr0 & _ & H).
  apply Res_bind_Done in H as ([prev curr] & Hinit & H).
  apply Res_bind_Done in H as (mem & Hloop & H).
  apply run_Done in Hinit. injection H as <- <-.
  apply kMeansLoop_Done_means in Hloop as [[Hstop _]|(Hd & Hc & Ha & Hm)].
  - exfalso. simpl in Hstop.
    pose proof (proj1 (stoppingConditionMet_true _ _ _ _) Hstop 0 ltac:(lia))
      as (p & c & Hp & Hc & Hcmp).
    destruct (init_costs_Some _ _ _ _ _ Hinit 0) as [Hp0 Hc0]; [lia|].
    assert (p = HUGE) as -> by congruence.
    assert (c = 0%float) as -> by congruence.
    change (abs (HUGE - 0))%float with HUGE in Hcmp. congruence.
  - simpl in *. split_and!; [done|done|].
    intros k d Hk Hd'. pose proof (Hm k d Hk Hd') as Hkd. simpl in Hkd.
    rewrite Hkd. by rewrite Hd.
  - eapply wf_same_shape; [exact Hwf|done|done|done].
Qed.

(** X13 on the points [{0, 1, 10, 11}] with two workers. *)
Lemma kMeansThread_returns_means_witness :
  load [0.5; 10.5]%float 1 =
    Some (cluster_sum 1 Ex.pts4 [0; 0; 1; 1]%Z 1 0 4 /
          of_int (Z.max (Z.of_nat (length (members [0; 0; 1; 1]%Z 1 4))) 1))%float.
Proof.
  destruct (kMeansThread_returns_means 2 10 Ex.pts4 Ex.seeds2 [7; 7; 7; 7]
              4 1 2 Ex.eps [0.5; 10.5]%float [0; 0; 1; 1]) as (_ & _ & Hmean).
  - constructor; simpl; unfold INT_MAX; lia.
  - lia.
  - reflexivity.
  - reflexivity.
  - apply (Hmean 1 0); lia.
Defined.

(** * The distance *)

Section Sign.
Variables (p e : Z).

Lemma binary_round_aux_nonneg m ex l :
  SFnonneg (binary_round_aux p e false m ex l).
Proof.
  unfold binary_round_aux.
  destruct (shr_fexp p e m ex l) as [mrs' e'].
  destruct (shr_fexp p e _ e' loc_Exact) as [mrs'' e''].
  destruct (shr_m mrs''); simpl; [done| |done].
  destruct (_ <=? _); done.
Qed.

Lemma binary_round_nonneg m ex : SFnonneg (binary_round p e false m ex).
Proof.
  unfold binary_round. destruct (shl_align _ _ _).
  apply binary_round_aux_nonneg.
Qed.

Lemma SFmul_self_nonneg x : SFnonneg (SFmul p e x x).
Proof.
  destruct x as [[]|[]| |[] m ex]; simpl; try done;
    apply binary_round_aux_nonneg.
Qed.

Lemma SFadd_nonneg x y :
  SFnonneg x → SFnonneg y → SFnonneg (SFadd p e x y).
Proof.
  destruct x as [sx|sx| |sx mx ex], y as [sy|sy| |sy my ey]; simpl;
    try done; try (intros; subst; done).
  intros -> ->. unfold cond_Zopp, binary_normalize. simpl.
  apply binary_round_nonneg.
Qed.

Lemma SFsqrt_nonneg x : SFnonneg x → SFnonneg (SFsqrt p e x).
Proof.
  destruct x as [sx|sx| |sx mx ex]; simpl; try done.
  - intros ->. done.
  - intros ->. destruct (SFsqrt_core_binary p e (Z.pos mx) ex) as [[mz ez] lz].
    apply binary_round_aux_nonneg.
Qed.
End Sign.

Lemma SFnonneg_ltb_zero x : SFnonneg x → SFltb x (S754_zero false) = false.
Proof.
  destruct x as [sx|sx| |sx mx ex]; simpl; try done; intros ->; done.
Qed.

Lemma pow2_nonneg d : SFnonneg (Prim2SF (pow2 d)).
Proof. unfold pow2. rewrite mul_spec. apply SFmul_self_nonneg. Qed.

Lemma dist_nonneg (x y : list float * Z) (nDim : Z) (d : float) :
  dist x y nDim = Some d →
  (d <? 0)%float = false ∧ SFnonneg (Prim2SF d).
Proof.
  unfold dist. intros H. apply bind_Some in H as (acc & Hacc & [= <-]).
  assert (SFnonneg (Prim2SF acc)) as Hn.
  { destruct (decide (0 ≤ nDim)) as [Hle|Hgt].
    - refine (For_inv_Some (λ _ (a : float), SFnonneg (Prim2SF a))
                _ _ _ _ _ Hle _ _ Hacc); [done|].
      intros i a a' _ Ha Hb.
      apply bind_Some in Hb as (xi & _ & Hb).
      apply bind_Some in Hb as (yi & _ & [= <-]).
      rewrite add_spec. apply SFadd_nonneg; [done|apply pow2_nonneg].
    - rewrite For_done in Hacc by lia. by injection Hacc as <-. }
  assert (SFnonneg (Prim2SF (sqrt acc))) as Hs.
  { rewrite sqrt_spec. by apply SFsqrt_nonneg. }
  split; [|done]. rewrite FloatAxioms.ltb_spec.
  by apply SFnonneg_ltb_zero.
Qed.

(** X14.  The distance [dist] returns is never below zero: it is zero or
    more, or a NaN (and never [-0.0]). *)
Theorem dist_not_negative (x y : list float * Z) (nDim : Z) (d : float) :
  dist x y nDim = Some d →
  (d <? 0)%float = false ∧ SFnonneg (Prim2SF d).
Proof. apply dist_nonneg. Qed.

(** X14 on the points [(0, 3)] and [(4, 0)]: the distance is [5]. *)
Lemma dist_not_negative_witness :
  (5 <? 0)%float = false ∧ SFnonneg (Prim2SF 5).
Proof.
  apply (dist_not_negative ([0; 3]%float, 0) ([4; 0]%float, 0) 2 5%float).
  reflexivity.
Defined.

(** X15.  With [nDim ≤ 0], [dist] reads nothing and returns [0.0]; with
    [nDim > 0] it is defined exactly when the [nDim] elements from each
    pointer lie inside its array. *)
Theorem dist_defined_iff (x y : list float) (xo yo nDim : Z) :
  (nDim ≤ 0 → dist (x, xo) (y, yo) nDim = Some 0%float) ∧
  (0 < nDim →
   is_Some (dist (x, xo) (y, yo) nDim) ↔
   0 ≤ xo ∧ xo + nDim ≤ Z.of_nat (length x) ∧
   0 ≤ yo ∧ yo + nDim ≤ Z.of_nat (length y)).
Proof.
  split.
  - intros Hn. unfold dist. rewrite For_done by lia. reflexivity.
  - intros Hn. split.
    + intros [d Hd]. unfold dist in Hd.
      apply bind_Some in Hd as (acc & Hacc & _).
      assert (∀ j, 0 ≤ j < nDim →
                0 ≤ xo + j < Z.of_nat (length x) ∧
                0 ≤ yo + j < Z.of_nat (length y)) as Hall.
      { refine (For_inv_Some (λ i (_ : float),
                  ∀ j, 0 ≤ j < i →
                    0 ≤ xo + j < Z.of_nat (length x) ∧
                    0 ≤ yo + j < Z.of_nat (length y))
                  _ _ _ _ _ _ _ _ Hacc); [lia|intros; lia|].
        intros i a a' Hi Hprev Hb. simpl in Hb.
        apply bind_Some in Hb as (xi & Hxi & Hb).
        apply bind_Some in Hb as (yi & Hyi & _).
        apply load_Some_lt in Hxi, Hyi.
        intros j Hj. destruct (decide (j = i)) as [->|]; [done|].
        apply Hprev. lia. }
      pose proof (Hall 0 ltac:(lia)). pose proof (Hall (nDim - 1) ltac:(lia)).
      lia.
    + intros (? & ? & ? & ?). apply dist_is_Some; lia.
Qed.

Lemma foldl_add_nonneg (f : Z → float) (l : list Z) (a : float) :
  SFnonneg (Prim2SF a) →
  (∀ j, SFnonneg (Prim2SF (f j))) →
  SFnonneg (Prim2SF (foldl (λ acc j, acc + f j)%float a l)).
Proof.
  intros Ha Hf. revert a Ha. induction l as [|j l IH]; intros a Ha; [done|].
  simpl. apply IH. rewrite add_spec. by apply SFadd_nonneg.
Qed.

(** X16.  On well-formed arrays whose assignments are cluster indices, no
    entry of the cost vector [computeCost] writes is below zero (each is
    zero or more, or a NaN). *)
Theorem computeCost_not_negative (args : WorkerArgs) (mem : Mem) :
  wf args mem →
  Z.of_nat (length (currCost mem)) = K args →
  assigned_in_range args (clusterAssignments mem) →
  ∃ mem',
    computeCost args mem = Some mem' ∧
    ∀ k c, load (currCost mem') k = Some c → (c <? 0)%float = false.
Proof.
  intros Hwf Hl Hasg.
  destruct (computeCost_spec args mem Hwf Hl Hasg) as (cost' & Hrun & Hl' & Hc).
  eexists. split; [done|]. simpl. intros k c Hk.
  pose proof (load_Some_lt _ _ _ Hk) as Hkr.
  rewrite Hc in Hk by lia. injection Hk as <-.
  rewrite FloatAxioms.ltb_spec. apply SFnonneg_ltb_zero.
  unfold cluster_cost. apply foldl_add_nonneg; [done|].
  intros j. destruct (dist_to _ _ _ j k) as [d|] eqn:Hd; simpl; [|done].
  by apply dist_nonneg in Hd as [_ ?].
Qed.

(** X16 on the points [{0, 1, 10, 11}] with the centroids [{0.5, 10.5}]. *)
Lemma computeCost_not_negative_witness :
  ∃ mem',
    computeCost Ex.args4 (Ex.mem4 [0; 0; 1; 1]) = Some mem' ∧
    ∃ c, load (currCost mem') 0 = Some c ∧ (c <? 0)%float = false.
Proof.
  destruct (computeCost_not_negative Ex.args4 (Ex.mem4 [0; 0; 1; 1]))
    as (mem' & Hrun & Hpos).
  - apply wf_mem4. reflexivity.
  - reflexivity.
  - intros m Hm. simpl in Hm.
    assert (m = 0 ∨ m = 1 ∨ m = 2 ∨ m = 3) as [-> | [-> | [-> | ->]]] by lia;
      eexists; (split; [reflexivity|simpl; lia]).
  - exists mem'. split; [exact Hrun|].
    injection Hrun as <-. exists 1%float. split; [reflexivity|].
    apply (Hpos 0). reflexivity.
Defined.

(** * saxpy *)

Section Saxpy.
Context {F : Type} (fmul fadd : F → F → F).
Implicit Types (X Y result : list F) (scale : F).

Lemma saxpy_range lo hi scale X Y result :
  0 ≤ lo ≤ hi →
  hi ≤ Z.of_nat (length X) →
  hi ≤ Z.of_nat (length Y) →
  hi ≤ Z.of_nat (length result) →
  ∃ r',
    For lo hi (saxpy_at fmul fadd scale X Y) result = Some r' ∧
    length r' = length result ∧
    (∀ i, lo ≤ i < hi → saxpy_stored fmul fadd scale X Y r' i) ∧
    (∀ i, ¬ (lo ≤ i < hi) → load r' i = load result i).
Proof.
  intros Hlo HX HY HR.
  for_inv (λ n (r : list F),
    length r = length result ∧
    (∀ i, lo ≤ i < n → saxpy_stored fmul fadd scale X Y r i) ∧
    (∀ i, ¬ (lo ≤ i < n) → load r i = load result i)).
  { lia. }
  { split_and!; [done|intros; lia|done]. }
  { intros n r Hn (Hl & Hin & Hout). unfold saxpy_at.
    destruct (load_is_Some X n) as [x Hx]; [lia|].
    destruct (load_is_Some Y n) as [y Hy]; [lia|].
    rewrite Hx, Hy. simpl. rewrite store_is_Some by lia.
    eexists. split; [done|]. split_and!; [by rewrite length_insert| |].
    - intros i Hi. destruct (decide (i = n)) as [->|].
      + exists x, y. split_and!; [done|done|].
        eapply load_store_eq. apply store_is_Some. lia.
      + destruct (Hin i) as (x' & y' & ? & ? & ?); [lia|].
        exists x', y'. split_and!; [done|done|].
        erewrite load_store_ne; [done|apply store_is_Some; lia|done].
    - intros i Hi. erewrite load_store_ne; [|apply store_is_Some; lia|lia].
      apply Hout. lia. }
  exists st. destruct Hinv as (? & ? & ?). done.
Qed.

(** X17.  For [0 ≤ N] within the three arrays, [saxpy_ispc] stores
    [scale * X[i] + Y[i]] into [result[i]] for every [i] of [[0, N)] and
    leaves the rest of [result], and its length, as they were. *)
Theorem saxpy_ispc_spec (N : Z) scale X Y result :
  0 ≤ N →
  N ≤ Z.of_nat (length X) →
  N ≤ Z.of_nat (length Y) →
  N ≤ Z.of_nat (length result) →
  ∃ r',
    saxpy_ispc fmul fadd N scale X Y result = Some r' ∧
    length r' = length result ∧
    (∀ i, 0 ≤ i < N →
       ∃ x y, load X i = Some x ∧ load Y i = Some y ∧
              load r' i = Some (fadd (fmul scale x) y)) ∧
    (∀ i, N ≤ i → load r' i = load result i).
Proof.
  intros HN HX HY HR.
  destruct (saxpy_range 0 N scale X Y result) as (r' & Hrun & Hl & Hin & Hout);
    [lia|done|done|done|].
  exists r'. split_and!; [done|done|done|]. intros i Hi. apply Hout. lia.
Qed.

(** X18.  For [0 ≤ N < 64] the span [N / 64] of [saxpy_ispc_withtasks] is
    zero and the task count [N / span] divides by zero: undefined
    behaviour, whatever the arrays are. *)
Theorem saxpy_ispc_withtasks_small (N : Z) scale X Y result :
  0 ≤ N < 64 →
  saxpy_ispc_withtasks fmul fadd N scale X Y result = None.
Proof.
  intros HN. unfold saxpy_ispc_withtasks.
  rewrite Z.quot_small by done. reflexivity.
Qed.

Lemma withtasks_bounds (N : Z) :
  64 ≤ N →
  0 < N `quot` 64 ∧
  0 < N `quot` (N `quot` 64) ∧
  N `quot` (N `quot` 64) * (N `quot` 64) ≤ N <
    N `quot` (N `quot` 64) * (N `quot` 64) + N `quot` 64.
Proof.
  intros HN. rewrite (Z.quot_div_nonneg N 64) by lia.
  assert (0 < N / 64) by (apply Z.div_str_pos; lia).
  rewrite (Z.quot_div_nonneg N (N / 64)) by lia.
  pose proof (Z.div_mod N (N / 64) ltac:(lia)).
  pose proof (Z.mod_pos_bound N (N / 64) ltac:(lia)).
  assert (N / 64 ≤ N) by (apply Z.div_le_upper_bound; lia).
  assert (0 < N / (N / 64)) by (apply Z.div_str_pos; lia).
  nia.
Qed.

Lemma withtasks_cover (N : Z) scale X Y result :
  64 ≤ N →
  N ≤ Z.of_nat (length X) →
  N ≤ Z.of_nat (length Y) →
  N ≤ Z.of_nat (length result) →
  ∃ r',
    saxpy_ispc_withtasks fmul fadd N scale X Y result = Some r' ∧
    length r' = length result ∧
    (∀ i, 0 ≤ i < N `quot` (N `quot` 64) * (N `quot` 64) →
       saxpy_stored fmul fadd scale X Y r' i) ∧
    (∀ i, N `quot` (N `quot` 64) * (N `quot` 64) ≤ i →
       load r' i = load result i).
Proof.
  intros HN HX HY HR. destruct (withtasks_bounds N HN) as (Hspan & Hcnt & Hle).
  unfold saxpy_ispc_withtasks. rewrite bool_decide_false by lia.
  set (span := N `quot` 64) in *. set (cnt := N `quot` span) in *.
  for_inv (λ t (r : list F),
    length r = length result ∧
    (∀ i, 0 ≤ i < t * span → saxpy_stored fmul fadd scale X Y r i) ∧
    (∀ i, ¬ (0 ≤ i < t * span) → load r i = load result i)).
  { lia. }
  { split_and!; [done|intros; lia|done]. }
  { intros t r Ht (Hl & Hin & Hout). unfold saxpy_ispc_task.
    rewrite Z.min_r by nia.
    destruct (saxpy_range (t * span) (t * span + span) scale X Y r)
      as (r' & Hrun & Hl' & Hin' & Hout'); [nia|nia|nia|nia|].
    exists r'. split; [done|]. split_and!; [congruence| |].
    - intros i Hi. destruct (decide (t * span ≤ i)) as [Hge|Hlt].
      + apply Hin'. nia.
      + destruct (Hin i) as (x & y & ? & ? & ?); [lia|].
        exists x, y. split_and!; [done|done|]. rewrite Hout' by lia. done.
    - intros i Hi. rewrite Hout' by nia. apply Hout. nia. }
  exists st. destruct Hinv as (? & ? & Hout).
  split_and!; [done|done|done|]. intros i Hi. apply Hout. lia.
Qed.

(** X19.  For [N ≥ 64] within the three arrays, [saxpy_ispc_withtasks]
    stores [scale * X[i] + Y[i]] into [result[i]] for every [i] below
    [(N / span) * span], where [span = N / 64], and writes nothing at or
    above it: the last [N mod span] elements of [[0, N)] keep what
    [result] held. *)
Theorem saxpy_ispc_withtasks_spec (N : Z) scale X Y result :
  64 ≤ N →
  N ≤ Z.of_nat (length X) →
  N ≤ Z.of_nat (length Y) →
  N ≤ Z.of_nat (length result) →
  ∃ r',
    saxpy_ispc_withtasks fmul fadd N scale X Y result = Some r' ∧
    length r' = length result ∧
    (∀ i, 0 ≤ i < N `quot` (N `quot` 64) * (N `quot` 64) →
       ∃ x y, load X i = Some x ∧ load Y i = Some y ∧
              load r' i = Some (fadd (fmul scale x) y)) ∧
    (∀ i, N `quot` (N `quot` 64) * (N `quot` 64) ≤ i →
       load r' i = load result i).
Proof. apply withtasks_cover. Qed.

(** X20.  For [N ≥ 64] within the three arrays, when the span [N / 64]
    divides [N] (as when [N] is a multiple of 64), the tasks of
    [saxpy_ispc_withtasks] together return what [saxpy_ispc] returns. *)
Theorem saxpy_ispc_withtasks_exact (N : Z) scale X Y result :
  64 ≤ N →
  N ≤ Z.of_nat (length X) →
  N ≤ Z.of_nat (length Y) →
  N ≤ Z.of_nat (length result) →
  N `rem` (N `quot` 64) = 0 →
  saxpy_ispc_withtasks fmul fadd N scale X Y result =
  saxpy_ispc fmul fadd N scale X Y result.
Proof.
  intros HN HX HY HR Hrem.
  destruct (withtasks_bounds N HN) as (Hspan & Hcnt & Hle).
  assert (N `quot` (N `quot` 64) * (N `quot` 64) = N) as Heq.
  { pose proof (Z.quot_rem' N (N `quot` 64)). lia. }
  destruct (saxpy_range 0 N scale X Y result) as (r1 & Hr1 & Hl1 & Hin1 & Hout1);
    [lia|done|done|done|].
  destruct (withtasks_cover N scale X Y result HN HX HY HR)
    as (r2 & Hr2 & Hl2 & Hin2 & Hout2).
  rewrite Heq in Hin2, Hout2.
  unfold saxpy_ispc. rewrite Hr1, Hr2.
  f_equal. apply list_eq_load; [congruence|]. intros i Hi.
  destruct (decide (i < N)) as [Hlt|Hge].
  - destruct (Hin1 i) as (x1 & y1 & Hx1 & Hy1 & Hv1); [lia|].
    destruct (Hin2 i) as (x2 & y2 & Hx2 & Hy2 & Hv2); [lia|]. congruence.
  - rewrite Hout2 by lia. rewrite Hout1 by lia. done.
Qed.
End Saxpy.

(** X17 on three elements of binary64, [N = 2]: the third is not
    written. *)
Lemma saxpy_ispc_spec_witness :
  ∃ r',
    saxpy_ispc PrimFloat.mul PrimFloat.add 2 2%float
      [1; 2; 3]%float [10; 20; 30]%float [0; 0; 7]%float = Some r' ∧
    load r' 2 = Some 7%float.
Proof.
  destruct (saxpy_ispc_spec PrimFloat.mul PrimFloat.add 2 2%float
              [1; 2; 3]%float [10; 20; 30]%float [0; 0; 7]%float)
    as (r' & Hrun & _ & _ & Hout); [lia|simpl; lia|simpl; lia|simpl; lia|].
  exists r'. split; [exact Hrun|]. rewrite (Hout 2); [reflexivity|lia].
Defined.

(** X18 on [N = 63]. *)
Lemma saxpy_ispc_withtasks_small_witness :
  saxpy_ispc_withtasks PrimFloat.mul PrimFloat.add 63 2%float
    (replicate 63 1%float) (replicate 63 1%float) (replicate 63 0%float) =
  None.
Proof.
  apply (saxpy_ispc_withtasks_small PrimFloat.mul PrimFloat.add 63). lia.
Defined.

(** X19 on [N = 129]: [span = 2], sixty-four tasks, and element 128 keeps
    its [7]. *)
Lemma saxpy_ispc_withtasks_spec_witness :
  ∃ r',
    saxpy_ispc_withtasks PrimFloat.mul PrimFloat.add 129 2%float
      (replicate 129 1%float) (replicate 129 1%float)
      (replicate 129 7%float) = Some r' ∧
    load r' 128 = Some 7%float.
Proof.
  destruct (saxpy_ispc_withtasks_spec PrimFloat.mul PrimFloat.add 129 2%float
              (replicate 129 1%float) (replicate 129 1%float)
              (replicate 129 7%float))
    as (r' & Hrun & _ & _ & Hout);
    [lia|rewrite length_replicate; lia|rewrite length_replicate; lia
    |rewrite length_replicate; lia|].
  exists r'. split; [exact Hrun|].
  rewrite (Hout 128); [reflexivity|]. vm_compute. discriminate.
Defined.

(** X20 on [N = 128]. *)
Lemma saxpy_ispc_withtasks_exact_witness :
  saxpy_ispc_withtasks PrimFloat.mul PrimFloat.add 128 2%float
    (replicate 128 1%float) (replicate 128 1%float) (replicate 128 0%float) =
  saxpy_ispc PrimFloat.mul PrimFloat.add 128 2%float
    (replicate 128 1%float) (replicate 128 1%float) (replicate 128 0%float).
Proof.
  apply (saxpy_ispc_withtasks_exact PrimFloat.mul PrimFloat.add 128);
    [lia|rewrite length_replicate; lia|rewrite length_replicate; lia
    |rewrite length_replicate; lia|reflexivity].
Defined.
